(** * libssh [misc.c]: the iterator list, [ntohll] and the path helpers

    A shallow embedding of [src/libssh/misc.c].  The linked list lives in an
    explicit store of heap cells; the byte-order helper is modelled on
    64-bit integers carried by [Z]; the two path helpers work on
    NUL-terminated strings carried by their characters. *)

From Stdlib Require Import ZArith Ascii String.
From stdpp Require Import gmap list fin_maps.

Local Open Scope Z_scope.

(** ** Outcomes

    A C call either returns, or trips over an invalid pointer (undefined
    behaviour, recorded as [Fault]), or is still looping when the fuel given
    to a loop is used up. *)

Inductive res (A : Type) : Type :=
  | Ok (a : A)
  | Fault
  | OutOfFuel.
Arguments Ok {A} a.
Arguments Fault {A}.
Arguments OutOfFuel {A}.

(** ** Memory *)

(** A pointer is [NULL] or the address of a cell. *)
Abbreviation addr := positive (only parsing).
Abbreviation ptr := (option positive) (only parsing).
Abbreviation NULL := (@None positive).

(** [struct ssh_iterator { struct ssh_iterator *next; const void *data; }] *)
Record ssh_iterator : Type := Iterator {
  next : ptr;
  data : ptr
}.

(** [struct ssh_list { struct ssh_iterator *root; struct ssh_iterator *end; }]
    ([end] is reserved in Rocq, hence [end_]). *)
Record ssh_list : Type := List {
  root : ptr;
  end_ : ptr
}.

(** The store a call works on: the live iterator cells and the list
    structure the call was handed a pointer to. *)
Record memory : Type := Memory {
  cells : gmap positive ssh_iterator;
  lst : ssh_list
}.

(** ** A state-and-fault monad for the list code *)

Definition M (A : Type) : Type := memory → res (A * memory).

Definition ret {A} (a : A) : M A := λ m, Ok (a, m).

Definition bind {A B} (c : M A) (k : A → M B) : M B :=
  λ m, match c m with
       | Ok (a, m') => k a m'
       | Fault => Fault
       | OutOfFuel => OutOfFuel
       end.

Declare Scope M_scope.
Delimit Scope M_scope with M.
Notation "'let*' x ':=' c 'in' k" := (bind c (λ x, k))
  (at level 10, x pattern, c at level 100, k at level 200) : M_scope.
Notation "'run' c 'in' k" := (bind c (λ _, k))
  (at level 10, c at level 100, k at level 200) : M_scope.
Local Open Scope M_scope.

Definition out_of_fuel {A} : M A := λ _, OutOfFuel.

(** [list->root], [list->end] and the assignments to them. *)
Definition get_root : M ptr := λ m, Ok (root (lst m), m).
Definition get_end : M ptr := λ m, Ok (end_ (lst m), m).
Definition set_root (p : ptr) : M unit :=
  λ m, Ok (tt, Memory (cells m) (List p (end_ (lst m)))).
Definition set_end (p : ptr) : M unit :=
  λ m, Ok (tt, Memory (cells m) (List (root (lst m)) p)).

(** [p->next], [p->data], [p->next = v], [free(p)]: each faults unless [p]
    is the address of a live cell. *)
Definition deref (p : ptr) : M ssh_iterator :=
  λ m, match p with
       | Some a => match cells m !! a with
                   | Some n => Ok (n, m)
                   | None => Fault
                   end
       | None => Fault
       end.

Definition load_next (p : ptr) : M ptr := let* n := deref p in ret (next n).
Definition load_data (p : ptr) : M ptr := let* n := deref p in ret (data n).

Definition store_next (p v : ptr) : M unit :=
  let* n := deref p in
  λ m, match p with
       | Some a => Ok (tt, Memory (<[a := Iterator v (data n)]> (cells m)) (lst m))
       | None => Fault
       end.

Definition free (p : ptr) : M unit :=
  run deref p in
  λ m, match p with
       | Some a => Ok (tt, Memory (delete a (cells m)) (lst m))
       | None => Fault
       end.

(** Modelled from the spec: the macro [SAFE_FREE] is defined in [priv.h],
    which is not among the sources.  The spec says that the storage of a
    removed node is released, so the macro frees its argument; like [free]
    of the C library it does nothing on [NULL]. *)
Definition SAFE_FREE (p : ptr) : M unit :=
  match p with
  | None => ret tt
  | Some _ => free p
  end.

(** [malloc(sizeof(struct ssh_iterator))] followed by the initialisation of
    both fields.  What the allocator answers is not decided by this file: it
    is the argument [fresh], [NULL] when memory is exhausted. *)
Definition malloc_iterator (fresh : ptr) (n : ssh_iterator) : M ptr :=
  λ m, match fresh with
       | Some a => Ok (Some a, Memory (<[a := n]> (cells m)) (lst m))
       | None => Ok (NULL, m)
       end.

(** ** Return codes *)

(** Modelled from the spec: the macros [SSH_OK] and [SSH_ERROR] come from
    [libssh.h], which is not among the sources.  The spec only says that a
    failed call answers with a distinguished failure value, so the two codes
    are the two values of an enumeration. *)
Inductive ssh_rc : Type := SSH_OK | SSH_ERROR.

(** ** The list operations *)

(** [ssh_list_new]: [ok] tells whether [malloc] found room for the list. *)
Definition ssh_list_new (ok : bool) : option ssh_list :=
  if ok then Some (List NULL NULL) else None.

Definition ssh_list_get_iterator (l : ssh_list) : ptr := root l.

Definition ssh_iterator_new (fresh : ptr) (d : ptr) : M ptr :=
  malloc_iterator fresh (Iterator NULL d).

Definition ssh_list_add (fresh : ptr) (d : ptr) : M ssh_rc :=
  let* iterator := ssh_iterator_new fresh d in
  match iterator with
  | None => ret SSH_ERROR
  | Some _ =>
      let* e := get_end in
      match e with
      | None => (* list is empty *)
          run set_end iterator in
          run set_root iterator in
          ret SSH_OK
      | Some _ => (* put it on end of list *)
          run store_next e iterator in
          run set_end iterator in
          ret SSH_OK
      end
  end.

(** The loop [while (ptr && ptr != iterator) { prev = ptr; ptr = ptr->next; }]
    of [ssh_list_remove]; it answers the final [(prev, ptr)]. *)
Fixpoint remove_scan (fuel : nat) (iterator prev p : ptr) : M (ptr * ptr) :=
  if bool_decide (p ≠ NULL ∧ p ≠ iterator) then
    match fuel with
    | O => out_of_fuel
    | S fuel' => let* nx := load_next p in remove_scan fuel' iterator p nx
    end
  else ret (prev, p).

Definition ssh_list_remove (fuel : nat) (iterator : ptr) : M unit :=
  let* r := get_root in
  let* (prev, p) := remove_scan fuel iterator NULL r in
  match p with
  | None => (* we did not find the element *) ret tt
  | Some _ =>
      (* unlink it *)
      run (match prev with
           | Some _ => let* nx := load_next p in store_next prev nx
           | None => ret tt
           end) in
      (* if iterator was the head *)
      let* r := get_root in
      run (if bool_decide (r = iterator)
           then let* nx := load_next iterator in set_root nx
           else ret tt) in
      (* if iterator was the tail *)
      let* e := get_end in
      run (if bool_decide (e = iterator) then set_end prev else ret tt) in
      SAFE_FREE iterator
  end.

Definition _ssh_list_get_head : M ptr :=
  let* iterator := get_root in
  match iterator with
  | None => ret NULL
  | Some _ =>
      let* d := load_data iterator in
      let* nx := load_next iterator in
      run set_root nx in
      let* e := get_end in
      run (if bool_decide (e = iterator) then set_end NULL else ret tt) in
      run SAFE_FREE iterator in
      ret d
  end.

(** [ssh_list_free]: releases every cell of the chain.  The list structure
    itself is not a cell of this store, so only the chain is released. *)
Fixpoint ssh_list_free_loop (fuel : nat) (p : ptr) : M unit :=
  match p with
  | None => ret tt
  | Some _ =>
      match fuel with
      | O => out_of_fuel
      | S fuel' =>
          let* nx := load_next p in
          run SAFE_FREE p in
          ssh_list_free_loop fuel' nx
      end
  end.

Definition ssh_list_free (fuel : nat) : M unit :=
  let* r := get_root in ssh_list_free_loop fuel r.

(** What a caller sees when it walks the list: starting from an iterator,
    read [data] and follow [next] until [NULL]. *)
Fixpoint traverse (fuel : nat) (it : ptr) : M (list ptr) :=
  match it with
  | None => ret []
  | Some _ =>
      match fuel with
      | O => out_of_fuel
      | S fuel' =>
          let* d := load_data it in
          let* nx := load_next it in
          let* rest := traverse fuel' nx in
          ret (d :: rest)
      end
  end.

(** A run of [ssh_list_add] calls, one per entry: what the allocator
    answered and the data reference handed in.  The return codes are
    collected in call order. *)
Fixpoint add_all (calls : list (ptr * ptr)) : M (list ssh_rc) :=
  match calls with
  | [] => ret []
  | (fresh, d) :: calls' =>
      let* rc := ssh_list_add fresh d in
      let* rcs := add_all calls' in
      ret (rc :: rcs)
  end.

(** ** The shape of a list in memory *)

(** [lseg h p xs q]: starting at [p] and following [next], one visits the
    cells listed in [xs] (address and stored data reference), in that order,
    and the [next] field of the last one is [q]. *)
Fixpoint lseg (h : gmap positive ssh_iterator) (p : ptr)
    (xs : list (positive * ptr)) (q : ptr) : Prop :=
  match xs with
  | [] => p = q
  | (a, d) :: xs' =>
      p = Some a ∧ ∃ nx, h !! a = Some (Iterator nx d) ∧ lseg h nx xs' q
  end.

(** The chain from [root] is [xs]: it visits no cell twice, stops at [NULL],
    and [end] is its last cell. *)
Definition is_list (m : memory) (xs : list (positive * ptr)) : Prop :=
  NoDup xs.*1 ∧
  lseg (cells m) (root (lst m)) xs NULL ∧
  end_ (lst m) = last xs.*1.

(** The invariant of the list structure. *)
Definition list_inv (m : memory) : Prop :=
  (root (lst m) = NULL ↔ end_ (lst m) = NULL) ∧ ∃ xs, is_list m xs.

(** The allocator hands out only addresses that are not live: [live] is the
    set of live addresses before the first call, and every address handed
    out becomes live. *)
Fixpoint malloc_fresh (live : gset positive) (answers : list ptr) : Prop :=
  match answers with
  | [] => True
  | None :: rest => malloc_fresh live rest
  | Some a :: rest => (a ∉ live) ∧ malloc_fresh ({[a]} ∪ live) rest
  end.

(** The calls of a run that were given a cell, as chain entries. *)
Fixpoint added (calls : list (ptr * ptr)) : list (positive * ptr) :=
  match calls with
  | [] => []
  | (Some a, d) :: rest => (a, d) :: added rest
  | (None, _) :: rest => added rest
  end.

(** The code a call answers, read off what the allocator gave it. *)
Definition rc_of (c : option positive * option positive) : ssh_rc :=
  match c.1 with Some _ => SSH_OK | None => SSH_ERROR end.

(** [yields m ds]: walking the list of [m] from [ssh_list_get_iterator]
    returns the data references [ds] and leaves the memory as it was. *)
Definition yields (m : memory) (ds : list (option positive)) : Prop :=
  ∀ fuel, (length ds ≤ fuel)%nat →
    traverse fuel (ssh_list_get_iterator (lst m)) m = Ok (ds, m).

(** A two-cell list used to exercise the statements: cell 1 holds data 10
    and points to cell 2, which holds data 20 and ends the chain. *)
Definition mem12 : memory :=
  Memory (<[1%positive := Iterator (Some 2%positive) (Some 10%positive)]>
            (<[2%positive := Iterator NULL (Some 20%positive)]> ∅))
         (List (Some 1%positive) (Some 2%positive)).

(** * [ntohll] *)

(** Casts to [uint32_t] and [uint64_t]. *)
Definition uint32 (x : Z) : Z := x mod 2 ^ 32.
Definition uint64 (x : Z) : Z := x mod 2 ^ 64.

(** [ntohl] of [<arpa/inet.h>], a function of the C library: network byte
    order is big-endian, so on a big-endian host it returns its argument and
    on a little-endian host it swaps the four bytes. *)
Definition ntohl (WORDS_BIGENDIAN : bool) (x : Z) : Z :=
  if WORDS_BIGENDIAN then uint32 x
  else
    Z.lor (Z.lor (Z.shiftl (Z.land x 0xff) 24)
                 (Z.shiftl (Z.land x 0xff00) 8))
          (Z.lor (Z.land (Z.shiftr x 8) 0xff00)
                 (Z.land (Z.shiftr x 24) 0xff)).

(** [ntohll]; the preprocessor symbol [WORDS_BIGENDIAN] is an argument. *)
Definition ntohll (WORDS_BIGENDIAN : bool) (a : Z) : Z :=
  if WORDS_BIGENDIAN then a
  else
    let low := uint32 (Z.land a 0xffffffff) in
    let high := uint32 (Z.shiftr a 32) in
    let low := uint32 (ntohl WORDS_BIGENDIAN low) in
    let high := uint32 (ntohl WORDS_BIGENDIAN high) in
    uint64 (Z.lor (uint64 (Z.shiftl (uint64 low) 32)) (uint64 high)).

(** Byte [k] of an integer, byte 0 being the least significant. *)
Definition byte_of (k : Z) (x : Z) : Z := Z.land (Z.shiftr x (8 * k)) 0xff.

(** * [ssh_dirname] and [ssh_basename] *)

(** A C string is given by the characters in front of its terminating NUL;
    a [char *] argument is [None] when it is the null pointer. *)
Definition cstr (s : string) : list ascii := list_ascii_of_string s.

Definition slash : ascii := "/"%char.

(** [s[i]]: reading at [strlen s] finds the terminator. *)
Definition char_at (s : list ascii) (i : nat) : ascii := nth i s zero.

Definition strlen (s : list ascii) : nat := length s.

(** The conversion of a [size_t] to [unsigned int] in
    [unsigned int len = strlen(path)]. *)
Definition to_uint (n : nat) : nat := Z.to_nat (Z.of_nat n mod 2 ^ 32).

(** [strdup] and [malloc] answer [NULL] when memory is exhausted; [ok] tells
    whether the allocator succeeds. *)
Definition strdup (ok : bool) (s : list ascii) : option (list ascii) :=
  if ok then Some s else None.

(** [new = malloc(len + 1); strncpy(new, s, len); new[len] = '\0';] *)
Definition copy_prefix (ok : bool) (s : list ascii) (len : nat)
  : option (list ascii) :=
  if ok then Some (take len s) else None.

(** [while (len > 0 && s[len - 1] == '/') --len;] *)
Fixpoint strip_slashes (s : list ascii) (len : nat) : nat :=
  match len with
  | O => O
  | S n => if Ascii.eqb (char_at s n) slash then strip_slashes s n else len
  end.

(** [while (len > 0 && s[len - 1] != '/') --len;] *)
Fixpoint skip_to_slash (s : list ascii) (len : nat) : nat :=
  match len with
  | O => O
  | S n => if Ascii.eqb (char_at s n) slash then len else skip_to_slash s n
  end.

(** What [ssh_dirname] does once [path] is known to be a non-empty string. *)
Definition ssh_dirname_body (ok : bool) (path : list ascii)
  : option (list ascii) :=
  let len := to_uint (strlen path) in
  (* Remove trailing slashes *)
  let len := strip_slashes path len in
  (* We have only slashes *)
  if (len =? 0)%nat then strdup ok (cstr "/")
  else
    (* goto next slash *)
    let len := skip_to_slash path len in
    if (len =? 0)%nat then strdup ok (cstr ".")
    else if (len =? 1)%nat then strdup ok (cstr "/")
    else
      (* Remove slashes again *)
      let len := strip_slashes path len in
      copy_prefix ok path len.

(** [if (path == NULL || *path == '\0') return strdup(".");] and the rest. *)
Definition ssh_dirname (ok : bool) (path : option (list ascii))
  : option (list ascii) :=
  match path with
  | None | Some [] => strdup ok (cstr ".")
  | Some path => ssh_dirname_body ok path
  end.

(** What [ssh_basename] does once [path] is known to be a non-empty string. *)
Definition ssh_basename_body (ok : bool) (path : list ascii)
  : option (list ascii) :=
  let len := to_uint (strlen path) in
  (* Remove trailing slashes *)
  let len := strip_slashes path len in
  (* We have only slashes *)
  if (len =? 0)%nat then strdup ok (cstr "/")
  else
    let len := skip_to_slash path len in
    if (0 <? len)%nat then
      let s := drop len path in
      let len := to_uint (strlen s) in
      let len := strip_slashes s len in
      copy_prefix ok s len
    else strdup ok path.

Definition ssh_basename (ok : bool) (path : option (list ascii))
  : option (list ascii) :=
  match path with
  | None | Some [] => strdup ok (cstr ".")
  | Some path => ssh_basename_body ok path
  end.

(** A string without its trailing slashes. *)
Fixpoint rstrip (s : list ascii) : list ascii :=
  match s with
  | [] => []
  | c :: s' =>
      match rstrip s' with
      | [] => if Ascii.eqb c slash then [] else [c]
      | r => c :: r
      end
  end.

(** * Further notions used to state what the code does *)

(** The data reference stored in each live cell. *)
Definition data_of (m : memory) : gmap positive (option positive) :=
  data <$> cells m.

(** [n] calls of [_ssh_list_get_head] in a row, the answers in call order. *)
Fixpoint pop_all (n : nat) : M (list ptr) :=
  match n with
  | O => ret []
  | S n' =>
      let* d := _ssh_list_get_head in
      let* ds := pop_all n' in
      ret (d :: ds)
  end.

(** The number whose bytes are [bs], the first byte being the least
    significant: what a little-endian host reads from memory holding [bs]. *)
Fixpoint le_bytes (bs : list Z) : Z :=
  match bs with
  | [] => 0
  | b :: bs' => b + 256 * le_bytes bs'
  end.

(** The number whose bytes are [bs], the first byte being the most
    significant: the value [bs] stands for in network byte order. *)
Definition be_bytes (bs : list Z) : Z := le_bytes (reverse bs).


(** * The list: proofs *)

(** ** Basic facts about segments *)

Section Segments.
Implicit Types (h : gmap positive ssh_iterator) (p q : ptr).
Implicit Types (xs ys : list (positive * ptr)).

Lemma lseg_app h p xs ys q :
  lseg h p (xs ++ ys) q ↔ ∃ r, lseg h p xs r ∧ lseg h r ys q.
Proof.
  revert p. induction xs as [|[a d] xs IH]; intros p; simpl.
  - split; [intros H; exists p; done | intros (r & -> & H); done].
  - split.
    + intros (-> & nx & Ha & H). apply IH in H as (r & H1 & H2).
      exists r. eauto 10.
    + intros (r & (-> & nx & Ha & H1) & H2). split; [done|].
      exists nx. split; [done|]. apply IH. eauto.
Qed.

Lemma lseg_insert_ne h p xs q a n :
  a ∉ xs.*1 → lseg h p xs q → lseg (<[a := n]> h) p xs q.
Proof.
  revert p. induction xs as [|[b d] xs IH]; intros p Hnin; simpl; [done|].
  intros (-> & nx & Hb & H). simpl in Hnin.
  apply not_elem_of_cons in Hnin as [Hne Hnin].
  split; [done|]. exists nx. rewrite lookup_insert_ne by done. auto.
Qed.

Lemma lseg_delete_ne h p xs q a :
  a ∉ xs.*1 → lseg h p xs q → lseg (delete a h) p xs q.
Proof.
  revert p. induction xs as [|[b d] xs IH]; intros p Hnin; simpl; [done|].
  intros (-> & nx & Hb & H). simpl in Hnin.
  apply not_elem_of_cons in Hnin as [Hne Hnin].
  split; [done|]. exists nx. rewrite lookup_delete_ne by done. auto.
Qed.

(** Every cell of a segment is live. *)
Lemma lseg_live h p xs q a :
  lseg h p xs q → a ∈ xs.*1 → is_Some (h !! a).
Proof.
  revert p. induction xs as [|[b d] xs IH]; intros p; simpl.
  - intros _ H. by apply elem_of_nil in H.
  - intros (-> & nx & Hb & H) [->|Hin]%elem_of_cons; eauto.
Qed.

(** A chain that reaches [NULL] is determined by where it starts. *)
Lemma lseg_NULL_unique h p xs ys :
  lseg h p xs NULL → lseg h p ys NULL → xs = ys.
Proof.
  revert p ys. induction xs as [|[a d] xs IH]; intros p [|[b e] ys]; simpl.
  - done.
  - intros -> (? & _). done.
  - intros (-> & _) ?. done.
  - intros (-> & nx & Ha & H1) (Hb & nx' & Hb' & H2).
    injection Hb as <-. rewrite Ha in Hb'. injection Hb' as <- <-.
    f_equal. eauto.
Qed.
End Segments.

(** ** What each operation does to a well-shaped list *)

Ltac unfold_M :=
  unfold SAFE_FREE, load_next, load_data, store_next, free, deref, set_root, set_end,
    get_root, get_end, malloc_iterator, bind, ret, out_of_fuel in *.

Section Operations.
Implicit Types (m : memory) (p q it : ptr) (a : positive).
Implicit Types (xs ys : list (positive * ptr)).

Lemma last_fst_snoc xs a (d : ptr) : last (xs ++ [(a, d)]).*1 = Some a.
Proof. rewrite fmap_app. apply last_snoc. Qed.

Lemma from_option_last_cons {A} (x : A) (l : list A) (prev : option A) :
  from_option Some (Some x) (last l) = from_option Some prev (last (x :: l)).
Proof.
  destruct l as [|y l]; [done|].
  change (last (x :: y :: l)) with (last (y :: l)).
  destruct (last (y :: l)) eqn:E; [done|]. by apply last_None in E.
Qed.

Lemma from_option_last_None {A} (o : option A) : from_option Some None o = o.
Proof. by destruct o. Qed.

(** Walking a chain reads off its data references and changes nothing. *)
Lemma traverse_lseg m p xs fuel :
  lseg (cells m) p xs NULL → (length xs ≤ fuel)%nat →
  traverse fuel p m = Ok (xs.*2, m).
Proof.
  revert p fuel. induction xs as [|[a d] xs IH]; intros p fuel; simpl.
  - intros -> _. by destruct fuel.
  - intros (-> & nx & Ha & H) Hfuel.
    destruct fuel as [|fuel]; [lia|]. simpl. unfold_M.
    repeat (rewrite Ha; simpl).
    rewrite (IH nx fuel) by (done || lia). done.
Qed.

(** The scan of [ssh_list_remove] runs along a segment none of whose cells
    is the one looked for, and stops where the segment ends when that is
    [NULL] or the cell looked for. *)
Lemma remove_scan_lseg m it prev p xs q fuel :
  lseg (cells m) p xs q →
  (∀ a, a ∈ xs.*1 → Some a ≠ it) →
  q = NULL ∨ q = it →
  (length xs ≤ fuel)%nat →
  remove_scan fuel it prev p m
  = Ok ((from_option Some prev (last xs.*1), q), m).
Proof.
  revert p prev fuel. induction xs as [|[a d] xs IH]; intros p prev fuel; simpl.
  - intros -> _ Hq _.
    assert (bool_decide (q ≠ NULL ∧ q ≠ it) = false) as Hd
      by (apply bool_decide_eq_false; naive_solver).
    destruct fuel; simpl; by rewrite Hd.
  - intros (-> & nx & Ha & H) Hnot Hq Hfuel.
    destruct fuel as [|fuel]; [lia|]. simpl.
    rewrite bool_decide_eq_true_2
      by (split; [done | apply Hnot; set_solver]).
    unfold_M. rewrite Ha. simpl.
    rewrite (IH nx (Some a) fuel); [|done|set_solver|done|lia].
    do 3 f_equal. apply from_option_last_cons.
Qed.

(** Appending with a cell in hand. *)
Lemma ssh_list_add_is_list m xs a d :
  is_list m xs → cells m !! a = None →
  ∃ m', ssh_list_add (Some a) d m = Ok (SSH_OK, m') ∧
        is_list m' (xs ++ [(a, d)]) ∧
        dom (cells m') = {[a]} ∪ dom (cells m).
Proof.
  intros (Hnd & Hseg & Hend) Hfresh.
  assert (a ∉ xs.*1) as Hnin.
  { intros Hin. destruct (lseg_live _ _ _ _ _ Hseg Hin) as [? ?]. congruence. }
  destruct m as [h [r e]]. simpl in *.
  unfold ssh_list_add, ssh_iterator_new. unfold_M. simpl.
  destruct xs as [|x xs _] using rev_ind.
  - simpl in *. subst. eexists. split; [done|]. simpl.
    split; [|by rewrite dom_insert_L].
    split; [apply NoDup_singleton|]. split; [|done]. simpl.
    split; [done|]. exists NULL. by rewrite lookup_insert_eq.
  - destruct x as [b db]. rewrite last_fst_snoc in Hend. subst e.
    apply lseg_app in Hseg as (r' & Hseg1 & Hseg2). simpl in Hseg2.
    destruct Hseg2 as (-> & nx & Hb & ->).
    rewrite fmap_app in Hnd, Hnin. simpl in Hnd, Hnin.
    pose proof Hnd as (Hnd1 & Hnd2 & _)%NoDup_app.
    assert (a ≠ b) as Hab by set_solver.
    simpl. rewrite lookup_insert_ne, Hb by done. simpl.
    eexists. split; [done|]. simpl.
    split; [|rewrite !dom_insert_L; apply elem_of_dom_2 in Hb; set_solver].
    split.
    { rewrite !fmap_app. simpl. apply NoDup_app. split; [done|].
      split; [|apply NoDup_singleton].
      intros y Hy ->%list_elem_of_singleton. done. }
    split; [|by rewrite last_fst_snoc].
    rewrite <-app_assoc. apply lseg_app. exists (Some b). split.
    + apply lseg_insert_ne; [set_solver|].
      apply lseg_insert_ne; [set_solver|done].
    + simpl. split; [done|]. exists (Some a).
      rewrite lookup_insert_eq. split; [done|]. split; [done|].
      exists NULL. rewrite lookup_insert_ne, lookup_insert_eq by done. done.
Qed.

Lemma lseg_head_ne h p xs q a :
  lseg h p xs q → xs ≠ [] → a ∉ xs.*1 → p ≠ Some a.
Proof.
  destruct xs as [|[b d] xs]; [done|]. simpl.
  intros (-> & _) _ Hnin [= ->]. set_solver.
Qed.

(** Unlinking a cell of the chain. *)
Lemma ssh_list_remove_is_list m xs a d ys fuel :
  is_list m (xs ++ (a, d) :: ys) → (length xs ≤ fuel)%nat →
  ∃ m', ssh_list_remove fuel (Some a) m = Ok (tt, m') ∧
        is_list m' (xs ++ ys).
Proof.
  intros (Hnd & Hseg & Hend) Hfuel.
  destruct m as [h [r e]]. simpl in *.
  rewrite fmap_app, fmap_cons in Hnd, Hend. simpl in Hnd, Hend.
  pose proof Hnd as (Hnd1 & Hdisj & [Ha2 Hnd2]%NoDup_cons)%NoDup_app.
  assert (a ∉ xs.*1) as Ha1 by (intros Hin; apply (Hdisj a); [done|set_solver]).
  apply lseg_app in Hseg as (r' & Hseg1 & Hseg2). simpl in Hseg2.
  destruct Hseg2 as (-> & nx & Ha & Hseg2).
  unfold ssh_list_remove. unfold bind at 1, get_root; simpl.
  unfold bind at 1.
  rewrite (remove_scan_lseg _ _ NULL r xs (Some a) fuel);
    [|done|simpl; congruence|by right|done].
  rewrite from_option_last_None.
  assert (e = Some a ↔ ys = []) as Hlast.
  { rewrite Hend, last_app, last_cons. split.
    - destruct (last ys.*1) as [y|] eqn:Ey.
      + intros [= ->]. apply last_Some_elem_of in Ey. done.
      + apply last_None, fmap_nil_inv in Ey. done.
    - intros ->. done. }
  assert (last (xs ++ ys).*1 = if bool_decide (e = Some a) then last xs.*1 else e)
    as Hend'.
  { rewrite fmap_app, last_app. case_bool_decide as He.
    - apply Hlast in He as ->. done.
    - rewrite Hend, last_app, last_cons.
      destruct (last ys.*1) eqn:Ey; [done|].
      apply last_None, fmap_nil_inv in Ey. by apply Hlast in Ey. }
  destruct xs as [|[b db] xs _] using rev_ind.
  - (* the cell is the head *)
    simpl in *. subst r. unfold_M. simpl.
    rewrite bool_decide_eq_true_2 by done. simpl. rewrite Ha. simpl.
    case_bool_decide as He; simpl; rewrite Ha; simpl;
      (eexists; split; [done|]);
      (split; [done|split; [by apply lseg_delete_ne|]]); done.
  - (* the cell has a predecessor [b] *)
    apply lseg_app in Hseg1 as (rb & Hseg1 & Hb). simpl in Hb.
    destruct Hb as (-> & nb & Hb & ->).
    rewrite fmap_app in Ha1, Hnd1, Hdisj. simpl in Ha1, Hnd1, Hdisj.
    pose proof Hnd1 as (Hnd1' & Hb1 & _)%NoDup_app.
    assert (a ≠ b) as Hab by set_solver.
    assert (b ∉ ys.*1) as Hb2 by (intros ?; apply (Hdisj b); set_solver).
    assert (b ∉ xs.*1) as Hb3 by (intros ?; apply (Hb1 b); set_solver).
    assert (r ≠ Some a) as Hr.
    { destruct xs as [|[c dc] xs].
      - simpl in Hseg1. subst r. congruence.
      - simpl in Hseg1. destruct Hseg1 as (-> & _). set_solver. }
    rewrite last_fst_snoc in *. simpl.
    unfold_M. simpl. rewrite Ha. simpl. rewrite Hb. simpl.
    rewrite (bool_decide_eq_false_2 (r = Some a)) by done. simpl.
    assert (∃ e', e' = (if bool_decide (e = Some a) then Some b else e))
      as [e' He'] by eauto.
    exists (Memory (delete a (<[b := Iterator nx db]> h)) (List r e')).
    split.
    { subst e'. case_bool_decide; simpl; rewrite lookup_insert_ne, Ha by done; done. }
    split; [|split; [|simpl; congruence]].
    { rewrite fmap_app. apply NoDup_app. split; [by rewrite fmap_app|].
      split; [|done]. intros x Hx Hx'. rewrite fmap_app in Hx.
      apply (Hdisj x Hx). set_solver. }
    simpl.
    rewrite <-app_assoc. apply lseg_app. exists (Some b). split.
    + apply lseg_delete_ne; [set_solver|].
      apply lseg_insert_ne; [set_solver|done].
    + simpl. split; [done|]. exists nx. split.
      * by rewrite lookup_delete_ne, lookup_insert_eq.
      * apply lseg_delete_ne; [done|]. by apply lseg_insert_ne.
Qed.

(** Looking for something that is not a cell of the chain. *)
Lemma ssh_list_remove_absent m xs it fuel :
  lseg (cells m) (root (lst m)) xs NULL →
  (∀ a, a ∈ xs.*1 → Some a ≠ it) →
  (length xs ≤ fuel)%nat →
  ssh_list_remove fuel it m = Ok (tt, m).
Proof.
  intros Hseg Hnot Hfuel.
  unfold ssh_list_remove. unfold bind at 1, get_root; simpl.
  unfold bind at 1.
  by rewrite (remove_scan_lseg _ _ NULL _ xs NULL fuel); [|done|done|left|done].
Qed.

(** Taking the head off. *)
Lemma _ssh_list_get_head_nil m :
  is_list m [] → _ssh_list_get_head m = Ok (NULL, m).
Proof.
  intros (_ & Hseg & _). simpl in Hseg.
  unfold _ssh_list_get_head. unfold_M. by rewrite Hseg.
Qed.

Lemma _ssh_list_get_head_cons m a d xs :
  is_list m ((a, d) :: xs) →
  ∃ m', _ssh_list_get_head m = Ok (d, m') ∧ is_list m' xs.
Proof.
  intros (Hnd & Hseg & Hend). destruct m as [h [r e]].
  rewrite fmap_cons in Hnd, Hend. rewrite last_cons in Hend.
  apply NoDup_cons in Hnd as [Ha' Hnd].
  destruct (last xs.*1) as [y|] eqn:Ey; simpl in *;
    destruct Hseg as (-> & nx & Ha & Hseg);
    unfold _ssh_list_get_head; unfold_M; simpl;
    repeat (rewrite Ha; simpl).
  - assert (y ≠ a) by (intros ->; by apply last_Some_elem_of in Ey).
    rewrite (bool_decide_eq_false_2 (e = Some a)) by congruence.
    simpl. rewrite Ha. simpl.
    eexists. split; [done|]. split; [done|]. simpl.
    split; [by apply lseg_delete_ne | congruence].
  - rewrite (bool_decide_eq_true_2 (e = Some a)) by done.
    simpl. rewrite Ha. simpl.
    eexists. split; [done|]. split; [done|]. simpl.
    split; [by apply lseg_delete_ne | done].
Qed.

(** A well-shaped list satisfies the invariant. *)
Lemma is_list_inv m xs : is_list m xs → list_inv m.
Proof.
  intros Hl. split; [|by exists xs].
  destruct Hl as (_ & Hseg & Hend). rewrite Hend.
  destruct xs as [|[a d] xs].
  - simpl in *. by rewrite Hseg.
  - destruct Hseg as (-> & _). split; [done|].
    by intros ?%last_None.
Qed.
End Operations.

(** ** Runs of [ssh_list_add] *)

Lemma ssh_list_add_NULL d m : ssh_list_add NULL d m = Ok (SSH_ERROR, m).
Proof. reflexivity. Qed.

Lemma add_all_is_list calls : ∀ m xs,
  is_list m xs → malloc_fresh (dom (cells m)) calls.*1 →
  ∃ m', add_all calls m = Ok (rc_of <$> calls, m') ∧
        is_list m' (xs ++ added calls).
Proof.
  induction calls as [|[[a|] d] calls IH]; intros m xs Hl Hfresh.
  - exists m. by rewrite app_nil_r.
  - destruct Hfresh as [Ha Hfresh]. apply not_elem_of_dom in Ha.
    destruct (ssh_list_add_is_list m xs a d Hl Ha) as (m1 & Hadd & Hl1 & Hdom).
    destruct (IH m1 _ Hl1) as (m' & Hrun & Hl'); [by rewrite Hdom|].
    exists m'. simpl. unfold bind. rewrite Hadd, Hrun.
    by rewrite <-app_assoc in Hl'.
  - destruct (IH m xs Hl Hfresh) as (m' & Hrun & Hl').
    exists m'. simpl. unfold bind. rewrite ssh_list_add_NULL, Hrun. done.
Qed.

Lemma added_all_OK calls :
  Forall (eq SSH_OK) (rc_of <$> calls) → (added calls).*2 = calls.*2.
Proof.
  induction calls as [|[[a|] d] calls IH]; simpl; [done| |].
  - intros [_ H]%Forall_cons. f_equal. auto.
  - intros [[=] _]%Forall_cons.
Qed.

Lemma length_added calls : (length (added calls) ≤ length calls)%nat.
Proof. induction calls as [|[[a|] d] calls IH]; simpl; lia. Qed.

Lemma is_list_new h l0 : ssh_list_new true = Some l0 → is_list (Memory h l0) [].
Proof. intros [= <-]. split; [constructor|]. done. Qed.

(** * The claims about the list *)

(** C1: on a list made by [ssh_list_new], any run of [ssh_list_add] calls
    returns, and when all of them answered [SSH_OK], walking from
    [ssh_list_get_iterator] along [next] yields exactly the data references
    handed in, in call order. *)
Theorem ssh_list_add_insertion_order
    (h : gmap positive ssh_iterator) (l0 : ssh_list)
    (calls : list (option positive * option positive)) :
  ssh_list_new true = Some l0 →
  malloc_fresh (dom h) calls.*1 →
  ∃ rcs m',
    add_all calls (Memory h l0) = Ok (rcs, m') ∧
    (Forall (eq SSH_OK) rcs →
     ∀ fuel, (length calls ≤ fuel)%nat →
       traverse fuel (ssh_list_get_iterator (lst m')) m' = Ok (calls.*2, m')).
Proof.
  intros Hnew Hfresh.
  destruct (add_all_is_list calls (Memory h l0) [] (is_list_new h l0 Hnew) Hfresh)
    as (m' & Hrun & Hl').
  exists (rc_of <$> calls), m'. split; [done|].
  intros Hok fuel Hfuel. simpl in Hl'. destruct Hl' as (_ & Hseg & _).
  rewrite <-(added_all_OK calls Hok).
  apply traverse_lseg; [done|]. pose proof (length_added calls). lia.
Qed.

Lemma ssh_list_add_insertion_order_witness :
  ∃ m',
    add_all [(Some 1%positive, Some 10%positive); (Some 2%positive, NULL);
             (Some 3%positive, Some 10%positive)]
      (Memory ∅ (List NULL NULL)) = Ok ([SSH_OK; SSH_OK; SSH_OK], m') ∧
    traverse 3 (ssh_list_get_iterator (lst m')) m'
    = Ok ([Some 10%positive; NULL; Some 10%positive], m').
Proof.
  destruct (ssh_list_add_insertion_order ∅ (List NULL NULL)
              [(Some 1%positive, Some 10%positive); (Some 2%positive, NULL);
               (Some 3%positive, Some 10%positive)])
    as (rcs & m' & Hrun & Hwalk).
  - reflexivity.
  - simpl. set_solver.
  - exists m'. assert (rcs = [SSH_OK; SSH_OK; SSH_OK]) as ->.
    { vm_compute in Hrun. congruence. }
    split; [exact Hrun|]. apply Hwalk; [repeat constructor | simpl; lia].
Defined.

Lemma is_list_yields m xs : is_list m xs → yields m xs.*2.
Proof.
  intros (_ & Hseg & _) fuel Hfuel. rewrite length_fmap in Hfuel.
  by apply traverse_lseg.
Qed.

(** C3: after [add(a); add(b); add(c)] on a new list, [_ssh_list_get_head]
    returns [a], then [b], then [c], then [NULL]; after each call the walk
    yields what was left, in the same order. *)
Theorem _ssh_list_get_head_fifo
    (h : gmap positive ssh_iterator) (l0 : ssh_list)
    (p1 p2 p3 : positive) (a b c : option positive) :
  ssh_list_new true = Some l0 →
  malloc_fresh (dom h) [Some p1; Some p2; Some p3] →
  ∃ m3 m4 m5 m6,
    add_all [(Some p1, a); (Some p2, b); (Some p3, c)] (Memory h l0)
      = Ok ([SSH_OK; SSH_OK; SSH_OK], m3) ∧
    yields m3 [a; b; c] ∧
    _ssh_list_get_head m3 = Ok (a, m4) ∧ yields m4 [b; c] ∧
    _ssh_list_get_head m4 = Ok (b, m5) ∧ yields m5 [c] ∧
    _ssh_list_get_head m5 = Ok (c, m6) ∧ yields m6 [] ∧
    _ssh_list_get_head m6 = Ok (NULL, m6).
Proof.
  intros Hnew Hfresh.
  destruct (add_all_is_list [(Some p1, a); (Some p2, b); (Some p3, c)]
              (Memory h l0) [] (is_list_new h l0 Hnew) Hfresh)
    as (m3 & Hrun & Hl3).
  simpl in Hl3.
  destruct (_ssh_list_get_head_cons _ _ _ _ Hl3) as (m4 & Hpop3 & Hl4).
  destruct (_ssh_list_get_head_cons _ _ _ _ Hl4) as (m5 & Hpop4 & Hl5).
  destruct (_ssh_list_get_head_cons _ _ _ _ Hl5) as (m6 & Hpop5 & Hl6).
  exists m3, m4, m5, m6.
  repeat split; try done.
  - apply (is_list_yields _ _ Hl3).
  - apply (is_list_yields _ _ Hl4).
  - apply (is_list_yields _ _ Hl5).
  - apply (is_list_yields _ _ Hl6).
  - by apply _ssh_list_get_head_nil.
Qed.

Lemma _ssh_list_get_head_fifo_witness :
  ∃ m3 m4 m5 m6,
    add_all [(Some 7%positive, Some 1%positive);
             (Some 4%positive, Some 2%positive);
             (Some 9%positive, Some 3%positive)] (Memory ∅ (List NULL NULL))
      = Ok ([SSH_OK; SSH_OK; SSH_OK], m3) ∧
    yields m3 [Some 1%positive; Some 2%positive; Some 3%positive] ∧
    _ssh_list_get_head m3 = Ok (Some 1%positive, m4) ∧
    yields m4 [Some 2%positive; Some 3%positive] ∧
    _ssh_list_get_head m4 = Ok (Some 2%positive, m5) ∧
    yields m5 [Some 3%positive] ∧
    _ssh_list_get_head m5 = Ok (Some 3%positive, m6) ∧ yields m6 [] ∧
    _ssh_list_get_head m6 = Ok (NULL, m6).
Proof.
  apply (_ssh_list_get_head_fifo ∅ (List NULL NULL) 7 4 9).
  - reflexivity.
  - simpl. set_solver.
Defined.

(** C4: [ssh_list_add], [ssh_list_remove] and [_ssh_list_get_head] each
    return and keep the invariant: [root] is [NULL] exactly when [end] is,
    and the chain from [root] visits no cell twice, reaches [NULL], and has
    [end] as its last cell. *)
Theorem list_inv_preserved (m : memory) :
  list_inv m →
  (∀ fresh d, (∀ a, fresh = Some a → cells m !! a = None) →
     ∃ rc m', ssh_list_add fresh d m = Ok (rc, m') ∧ list_inv m') ∧
  (∀ it, ∃ n, ∀ fuel, (n ≤ fuel)%nat →
     ∃ m', ssh_list_remove fuel it m = Ok (tt, m') ∧ list_inv m') ∧
  (∃ d m', _ssh_list_get_head m = Ok (d, m') ∧ list_inv m').
Proof.
  intros Hinv. pose proof Hinv as [_ [xs Hl]]. repeat split.
  - intros [a|] d Hfresh.
    + destruct (ssh_list_add_is_list m xs a d Hl) as (m' & Hadd & Hl' & _);
        [by apply Hfresh|].
      exists SSH_OK, m'. eauto using is_list_inv.
    + exists SSH_ERROR, m. done.
  - intros it. exists (length xs). intros fuel Hfuel.
    destruct it as [a|]; [destruct (decide (a ∈ xs.*1)) as [Hin|Hnin]|].
    + apply list_elem_of_fmap in Hin as ([a' d] & -> & Hin).
      apply list_elem_of_split in Hin as (xs1 & xs2 & ->).
      destruct (ssh_list_remove_is_list m xs1 a' d xs2 fuel Hl) as (m' & Hrm & Hl').
      { rewrite length_app in Hfuel. lia. }
      exists m'. eauto using is_list_inv.
    + exists m. split; [|done]. destruct Hl as (_ & Hseg & _).
      apply (ssh_list_remove_absent m xs); [done| |done]. congruence.
    + exists m. split; [|done]. destruct Hl as (_ & Hseg & _).
      by apply (ssh_list_remove_absent m xs).
  - destruct xs as [|[a d] xs].
    + exists NULL, m. split; [by apply _ssh_list_get_head_nil|done].
    + destruct (_ssh_list_get_head_cons m a d xs Hl) as (m' & Hpop & Hl').
      exists d, m'. eauto using is_list_inv.
Qed.

Lemma mem12_is_list :
  is_list mem12 [(1%positive, Some 10%positive); (2%positive, Some 20%positive)].
Proof.
  split; [|split; [|reflexivity]].
  - apply NoDup_cons. split; [set_solver|]. apply NoDup_singleton.
  - simpl. split; [reflexivity|]. eexists. split; [reflexivity|].
    split; [reflexivity|]. eexists. split; reflexivity.
Defined.

Lemma mem12_inv : list_inv mem12.
Proof. exact (is_list_inv _ _ mem12_is_list). Defined.

Lemma list_inv_preserved_witness :
  list_inv mem12 ∧
  (∀ fresh d, (∀ a, fresh = Some a → cells mem12 !! a = None) →
     ∃ rc m', ssh_list_add fresh d mem12 = Ok (rc, m') ∧ list_inv m') ∧
  (∀ it, ∃ n, ∀ fuel, (n ≤ fuel)%nat →
     ∃ m', ssh_list_remove fuel it mem12 = Ok (tt, m') ∧ list_inv m') ∧
  (∃ d m', _ssh_list_get_head mem12 = Ok (d, m') ∧ list_inv m').
Proof.
  split; [exact mem12_inv|]. apply (list_inv_preserved mem12). exact mem12_inv.
Defined.

(** C5: when the iterator handed to [ssh_list_remove] is no cell of the
    chain ([NULL], a cell of something else, or no cell at all), the call
    returns and the memory, hence the whole list, is what it was. *)
Theorem ssh_list_remove_not_found
    (m : memory) (xs : list (positive * option positive))
    (it : option positive) (fuel : nat) :
  is_list m xs →
  (∀ a, it = Some a → a ∉ xs.*1) →
  (length xs ≤ fuel)%nat →
  ssh_list_remove fuel it m = Ok (tt, m).
Proof.
  intros (_ & Hseg & _) Hnot Hfuel.
  apply (ssh_list_remove_absent m xs); [done| |done].
  intros a Hin <-. by apply (Hnot a).
Qed.

Lemma ssh_list_remove_not_found_witness :
  ssh_list_remove 2 (Some 5%positive) mem12 = Ok (tt, mem12).
Proof.
  apply (ssh_list_remove_not_found mem12
           [(1%positive, Some 10%positive); (2%positive, Some 20%positive)]).
  - exact mem12_is_list.
  - intros a [= <-]. simpl. set_solver.
  - simpl. lia.
Defined.

(** C6: when the allocator has no cell to give, [ssh_list_add] answers
    [SSH_ERROR], which is not [SSH_OK], and the memory (root, end and every
    cell) is what it was. *)
Theorem ssh_list_add_alloc_failure (m : memory) (d : option positive) :
  ssh_list_add NULL d m = Ok (SSH_ERROR, m) ∧ SSH_ERROR ≠ SSH_OK.
Proof. split; [reflexivity | discriminate]. Qed.

(** C7: an [ssh_list_add] that succeeds, followed by [ssh_list_remove] of
    the cell it made, gives back the very memory one started from: same
    cells, same [root], same [end], hence the same walk. *)
Theorem ssh_list_add_remove_identity
    (m : memory) (xs : list (positive * option positive))
    (a : positive) (d : option positive) (fuel : nat) :
  is_list m xs →
  cells m !! a = None →
  (length xs ≤ fuel)%nat →
  ∃ m1, ssh_list_add (Some a) d m = Ok (SSH_OK, m1) ∧
        yields m1 (xs.*2 ++ [d]) ∧
        ssh_list_remove fuel (Some a) m1 = Ok (tt, m) ∧
        yields m xs.*2.
Proof.
  intros Hl Hfresh Hfuel.
  destruct (ssh_list_add_is_list m xs a d Hl Hfresh) as (m1 & Hadd & Hl1 & _).
  exists m1. split; [done|].
  split; [by apply is_list_yields in Hl1; rewrite fmap_app in Hl1|].
  split; [|by apply is_list_yields].
  pose proof Hl as (Hnd & Hseg & Hend).
  assert (a ∉ xs.*1) as Hnin.
  { intros Hin. destruct (lseg_live _ _ _ _ _ Hseg Hin) as [? ?]. congruence. }
  destruct m as [h [r e]]. simpl in *.
  unfold ssh_list_add, ssh_iterator_new in Hadd. unfold_M. simpl in Hadd.
  destruct xs as [|[b db] xs _] using rev_ind.
  - simpl in *. subst r e. simpl in Hadd. injection Hadd as <-.
    unfold ssh_list_remove. unfold_M.
    destruct fuel; simpl; rewrite bool_decide_eq_false_2 by naive_solver;
      simpl; rewrite !bool_decide_eq_true_2 by done; simpl;
      rewrite !lookup_insert_eq; simpl;
      rewrite !bool_decide_eq_true_2 by done; simpl;
      rewrite !lookup_insert_eq; simpl;
      by rewrite delete_insert_id.
  - rewrite last_fst_snoc in Hend. subst e.
    apply lseg_app in Hseg as (r' & Hseg1 & Hseg2). simpl in Hseg2.
    destruct Hseg2 as (-> & nx & Hb & ->).
    rewrite fmap_app in Hnd, Hnin. simpl in Hnd, Hnin.
    pose proof Hnd as (Hnd1 & Hnd2 & _)%NoDup_app.
    assert (a ≠ b) as Hab by set_solver.
    assert (b ∉ xs.*1) as Hbx by (intros ?; apply (Hnd2 b); set_solver).
    simpl in Hadd. rewrite lookup_insert_ne, Hb in Hadd by done.
    simpl in Hadd. injection Hadd as <-.
    destruct Hl1 as (_ & Hseg' & _). simpl in Hseg'.
    rewrite <-app_assoc in Hseg'. apply lseg_app in Hseg' as (rb & Hs1 & Hs2).
    assert (r ≠ Some a) as Hr.
    { destruct xs as [|[c dc] xs]; simpl in Hseg1.
      - subst r. congruence.
      - destruct Hseg1 as (-> & _). set_solver. }
    unfold ssh_list_remove. unfold bind at 1, get_root; simpl.
    unfold bind at 1.
    rewrite (remove_scan_lseg _ _ NULL r (xs ++ [(b, db)]) (Some a) fuel);
      [|simpl | | by right| done].
    + rewrite last_fst_snoc. simpl. unfold_M. simpl.
      rewrite lookup_insert_ne, lookup_insert_eq by done. simpl.
      rewrite lookup_insert_eq. simpl.
      rewrite (bool_decide_eq_false_2 (r = Some a)) by done. simpl.
      rewrite bool_decide_eq_true_2 by done. simpl.
      rewrite lookup_insert_ne, lookup_insert_ne, lookup_insert_eq by done.
      simpl. do 3 f_equal.
      rewrite insert_insert_eq, delete_insert_ne, delete_insert_id by done.
      by apply insert_id.
    + apply lseg_app. exists rb. split; [done|].
      simpl in Hs2. destruct Hs2 as (-> & nx & Hb' & Hs2).
      simpl. split; [done|]. exists nx. split; [done|].
      destruct Hs2 as (Hs2 & _). done.
    + intros x Hx [= ->]. rewrite fmap_app in Hx. done.
Qed.

Lemma ssh_list_add_remove_identity_witness :
  ∃ m1, ssh_list_add (Some 3%positive) (Some 30%positive) mem12
          = Ok (SSH_OK, m1) ∧
        yields m1 [Some 10%positive; Some 20%positive; Some 30%positive] ∧
        ssh_list_remove 2 (Some 3%positive) m1 = Ok (tt, mem12) ∧
        yields mem12 [Some 10%positive; Some 20%positive].
Proof.
  apply (ssh_list_add_remove_identity mem12
           [(1%positive, Some 10%positive); (2%positive, Some 20%positive)]
           3%positive (Some 30%positive) 2).
  - exact mem12_is_list.
  - reflexivity.
  - simpl. lia.
Defined.

(** C9: [_ssh_list_get_head] answers [NULL] on an empty list, and it also
    answers [NULL] when the head cell stores a [NULL] data reference, which
    [ssh_iterator_new] stores like any other; the answer alone does not tell
    the two apart. *)
Theorem _ssh_list_get_head_NULL_ambiguous :
  (∀ m, root (lst m) = NULL → _ssh_list_get_head m = Ok (NULL, m)) ∧
  (∀ m a xs, is_list m ((a, NULL) :: xs) →
     ∃ m', _ssh_list_get_head m = Ok (NULL, m') ∧ is_list m' xs) ∧
  (∀ m a, ssh_iterator_new (Some a) NULL m
          = Ok (Some a, Memory (<[a := Iterator NULL NULL]> (cells m)) (lst m))) ∧
  (∀ m a xs, is_list m xs → cells m !! a = None →
     ∃ m', ssh_list_add (Some a) NULL m = Ok (SSH_OK, m') ∧
           is_list m' (xs ++ [(a, NULL)])).
Proof.
  split; [|split; [|split]].
  - intros m Hroot. unfold _ssh_list_get_head. unfold_M. by rewrite Hroot.
  - intros m a xs Hl. by apply (_ssh_list_get_head_cons m a).
  - reflexivity.
  - intros m a xs Hl Hfresh.
    destruct (ssh_list_add_is_list m xs a NULL Hl Hfresh) as (m' & ? & ? & _).
    eauto.
Qed.

(** An empty list and a list whose only cell stores [NULL]: one call of
    [_ssh_list_get_head] answers [NULL] on both. *)
Lemma _ssh_list_get_head_NULL_ambiguous_witness :
  _ssh_list_get_head (Memory ∅ (List NULL NULL))
    = Ok (NULL, Memory ∅ (List NULL NULL)) ∧
  ∃ m1 m2,
    ssh_list_add (Some 1%positive) NULL (Memory ∅ (List NULL NULL))
      = Ok (SSH_OK, m1) ∧
    is_list m1 [(1%positive, NULL)] ∧
    _ssh_list_get_head m1 = Ok (NULL, m2) ∧ is_list m2 [].
Proof.
  destruct _ssh_list_get_head_NULL_ambiguous as (Hempty & Hnull & _ & Hadd).
  split; [by apply Hempty|].
  destruct (Hadd (Memory ∅ (List NULL NULL)) 1%positive [])
    as (m1 & Hadd1 & Hl1); [by apply is_list_new | reflexivity |].
  destruct (Hnull m1 1%positive [] Hl1) as (m2 & Hpop & Hl2).
  exists m1, m2. done.
Defined.

(** * A run through the list interface

    Create a list, add three references, walk it, take the head off, remove
    the tail cell, and release the rest. *)
Example list_scenario :
  (let* _ := add_all [(Some 1%positive, Some 11%positive);
                      (Some 2%positive, Some 12%positive);
                      (Some 3%positive, Some 13%positive)] in
   let* r := get_root in
   let* before := traverse 3 r in
   let* hd := _ssh_list_get_head in
   let* r := get_root in
   let* after := traverse 3 r in
   run ssh_list_remove 3 (Some 3%positive) in
   let* r := get_root in
   let* e := get_end in
   let* last := traverse 3 r in
   run ssh_list_free 3 in
   ret (before, hd, after, (r, e), last))
    (Memory ∅ (List NULL NULL))
  = Ok (([Some 11%positive; Some 12%positive; Some 13%positive],
         Some 11%positive,
         [Some 12%positive; Some 13%positive],
         (Some 2%positive, Some 2%positive),
         [Some 12%positive]),
        Memory ∅ (List (Some 2%positive) (Some 2%positive))).
Proof. vm_compute. reflexivity. Qed.

(** * [ntohll]: proofs *)

Section Bits.
Lemma testbit_0xff i : Z.testbit 0xff i = (0 <=? i) && (i <? 8).
Proof. change 0xff with (Z.ones 8). apply Z.testbit_ones. lia. Qed.

Lemma testbit_0xff00 i : Z.testbit 0xff00 i = (8 <=? i) && (i <? 16).
Proof.
  change 0xff00 with (Z.shiftl (Z.ones 8) 8).
  destruct (Z.leb_spec 0 i).
  - rewrite Z.shiftl_spec, Z.testbit_ones by lia.
    destruct (Z.leb_spec 8 i), (Z.leb_spec 0 (i - 8)),
      (Z.ltb_spec (i - 8) 8), (Z.ltb_spec i 16); simpl; lia.
  - rewrite Z.testbit_neg_r by lia.
    destruct (Z.leb_spec 8 i); [lia|done].
Qed.

Lemma testbit_0xffffffff i : Z.testbit 0xffffffff i = (0 <=? i) && (i <? 32).
Proof. change 0xffffffff with (Z.ones 32). apply Z.testbit_ones. lia. Qed.

Lemma testbit_uint32 x i : Z.testbit (uint32 x) i = (i <? 32) && Z.testbit x i.
Proof. apply Z.testbit_mod_pow2. lia. Qed.

Lemma testbit_uint64 x i : Z.testbit (uint64 x) i = (i <? 64) && Z.testbit x i.
Proof. apply Z.testbit_mod_pow2. lia. Qed.

Lemma testbit_above a n i :
  0 <= a < 2 ^ n → 0 <= n <= i → Z.testbit a i = false.
Proof.
  intros Ha Hn. rewrite <-(Z.mod_small a (2 ^ n)) by done.
  apply Z.mod_pow2_bits_high. lia.
Qed.
End Bits.

(** Push [Z.testbit] through the operators of the C expressions. *)
Ltac push_testbit :=
  repeat first
    [ rewrite Z.lor_spec | rewrite Z.land_spec
    | rewrite testbit_uint32 | rewrite testbit_uint64
    | rewrite Z.shiftl_spec by lia | rewrite Z.shiftr_spec by lia
    | rewrite testbit_0xff | rewrite testbit_0xff00
    | rewrite testbit_0xffffffff ].

(** Decide every comparison in the goal, dropping the impossible cases. *)
Ltac split_cmp :=
  repeat match goal with
    | |- context [?x <? ?y] => destruct (Z.ltb_spec x y); try lia
    | |- context [?x <=? ?y] => destruct (Z.leb_spec x y); try lia
    end.

(** Close a goal that is an identity of booleans once the arguments of
    [Z.testbit] are put in the same form. *)
Ltac close_bits :=
  simpl;
  rewrite ?Z.testbit_neg_r by lia;
  rewrite ?andb_true_r, ?andb_false_r, ?orb_false_r, ?orb_false_l;
  try reflexivity;
  try (f_equal; lia).

Section Ntohll.
Lemma ntohl_bits x i :
  0 <= i →
  Z.testbit (ntohl false x) i =
    if i <? 8 then Z.testbit x (i + 24)
    else if i <? 16 then Z.testbit x (i + 8)
    else if i <? 24 then Z.testbit x (i - 8)
    else if i <? 32 then Z.testbit x (i - 24)
    else false.
Proof.
  intros Hi. unfold ntohl. push_testbit. split_cmp; close_bits.
Qed.

Lemma ntohll_bits a i :
  0 <= i →
  Z.testbit (ntohll false a) i =
    if i <? 8 then Z.testbit a (i + 56)
    else if i <? 16 then Z.testbit a (i + 40)
    else if i <? 24 then Z.testbit a (i + 24)
    else if i <? 32 then Z.testbit a (i + 8)
    else if i <? 40 then Z.testbit a (i - 8)
    else if i <? 48 then Z.testbit a (i - 24)
    else if i <? 56 then Z.testbit a (i - 40)
    else if i <? 64 then Z.testbit a (i - 56)
    else false.
Proof.
  intros Hi. unfold ntohll. cbv zeta. push_testbit.
  destruct (Z.ltb_spec i 32).
  - rewrite (Z.testbit_neg_r _ (i - 32)) by lia.
    rewrite ntohl_bits by lia. push_testbit.
    split_cmp; push_testbit; close_bits.
  - rewrite ntohl_bits by lia. push_testbit.
    split_cmp; push_testbit; close_bits.
Qed.

Lemma ntohll_range a : 0 <= ntohll false a < 2 ^ 64.
Proof. unfold ntohll. cbv zeta. apply Z.mod_pos_bound. lia. Qed.
End Ntohll.

(** C8: without [WORDS_BIGENDIAN], [ntohll] applied twice to a 64-bit value
    gives the value back, and it does so because byte [k] of the result is
    byte [7 - k] of the argument. *)
Theorem ntohll_involution (a : Z) :
  0 <= a < 2 ^ 64 →
  ntohll false (ntohll false a) = a ∧
  ∀ k, 0 <= k < 8 → byte_of k (ntohll false a) = byte_of (7 - k) a.
Proof.
  intros Ha. split.
  - apply Z.bits_inj'. intros i Hi.
    rewrite ntohll_bits by done.
    split_cmp; try (rewrite ntohll_bits by lia; split_cmp; close_bits).
    symmetry. apply (testbit_above a 64); lia.
  - intros k Hk. apply Z.bits_inj'. intros i Hi.
    unfold byte_of. push_testbit.
    destruct (Z.ltb_spec i 8); [|by rewrite !andb_false_r].
    rewrite ntohll_bits by lia. split_cmp; close_bits.
Qed.

Lemma ntohll_involution_witness :
  ntohll false (ntohll false 0x0102030405060708) = 0x0102030405060708 ∧
  ∀ k, 0 <= k < 8 →
    byte_of k (ntohll false 0x0102030405060708)
    = byte_of (7 - k) 0x0102030405060708.
Proof. apply (ntohll_involution 0x0102030405060708). lia. Defined.

Example ntohll_example : ntohll false 0x0102030405060708 = 0x0807060504030201.
Proof. reflexivity. Qed.

(** * [ssh_dirname] and [ssh_basename]: proofs *)

Example ssh_dirname_examples :
  ssh_dirname true (Some (cstr "/usr/lib")) = Some (cstr "/usr") ∧
  ssh_dirname true (Some (cstr "/usr/")) = Some (cstr "/") ∧
  ssh_dirname true (Some (cstr "usr")) = Some (cstr ".") ∧
  ssh_dirname true (Some (cstr "a///b")) = Some (cstr "a") ∧
  ssh_dirname true (Some (cstr "/x/abc//")) = Some (cstr "/x") ∧
  ssh_dirname false (Some (cstr "a/b")) = None.
Proof. repeat split. Qed.

Example ssh_basename_examples :
  ssh_basename true (Some (cstr "/usr/lib")) = Some (cstr "lib") ∧
  ssh_basename true (Some (cstr "/usr/")) = Some (cstr "usr") ∧
  ssh_basename true (Some (cstr "usr")) = Some (cstr "usr") ∧
  ssh_basename true (Some (cstr "/x/abc//")) = Some (cstr "abc") ∧
  ssh_basename false (Some (cstr "a/b")) = None.
Proof. repeat split. Qed.

(** ** The two loops of the path helpers *)

Section PathLoops.
Implicit Types (s p q d b : list ascii) (c : ascii) (n k : nat).

Lemma to_uint_small n : Z.of_nat n < 2 ^ 32 → to_uint n = n.
Proof.
  intros Hn. unfold to_uint. rewrite Z.mod_small by lia. apply Nat2Z.id.
Qed.

Lemma char_at_app_l p q n : (n < length p)%nat → char_at (p ++ q) n = char_at p n.
Proof. intros Hn. unfold char_at. by rewrite app_nth1. Qed.

Lemma char_at_snoc p c q : char_at (p ++ c :: q) (length p) = c.
Proof. unfold char_at. by rewrite nth_middle. Qed.

Lemma strip_slashes_le s n : (strip_slashes s n ≤ n)%nat.
Proof.
  induction n as [|n IH]; simpl; [done|].
  destruct (Ascii.eqb _ _); lia.
Qed.

Lemma skip_to_slash_le s n : (skip_to_slash s n ≤ n)%nat.
Proof.
  induction n as [|n IH]; simpl; [done|].
  destruct (Ascii.eqb _ _); lia.
Qed.

(** Both loops only look at characters in front of [len]. *)
Lemma strip_slashes_app_l p q n :
  (n ≤ length p)%nat → strip_slashes (p ++ q) n = strip_slashes p n.
Proof.
  induction n as [|n IH]; simpl; [done|]. intros Hn.
  rewrite char_at_app_l by lia. rewrite IH by lia. done.
Qed.

Lemma skip_to_slash_app_l p q n :
  (n ≤ length p)%nat → skip_to_slash (p ++ q) n = skip_to_slash p n.
Proof.
  induction n as [|n IH]; simpl; [done|]. intros Hn.
  rewrite char_at_app_l by lia. rewrite IH by lia. done.
Qed.

Lemma strip_slashes_snoc p c :
  strip_slashes (p ++ [c]) (S (length p)) =
    if Ascii.eqb c slash then strip_slashes p (length p) else S (length p).
Proof.
  simpl. rewrite char_at_snoc.
  destruct (Ascii.eqb c slash); [|done]. by apply strip_slashes_app_l.
Qed.

Lemma skip_to_slash_snoc p c :
  skip_to_slash (p ++ [c]) (S (length p)) =
    if Ascii.eqb c slash then S (length p) else skip_to_slash p (length p).
Proof.
  simpl. rewrite char_at_snoc.
  destruct (Ascii.eqb c slash); [done|]. by apply skip_to_slash_app_l.
Qed.

(** Trailing slashes are skipped by the first loop. *)
Lemma strip_slashes_trailing p k :
  strip_slashes (p ++ replicate k slash) (length p + k)
  = strip_slashes p (length p).
Proof.
  induction k as [|k IH].
  - rewrite Nat.add_0_r. by apply strip_slashes_app_l.
  - rewrite replicate_S_end, app_assoc.
    replace (length p + S k)%nat with (S (length (p ++ replicate k slash)))
      by (rewrite length_app, length_replicate; lia).
    rewrite strip_slashes_snoc, Ascii.eqb_refl.
    by rewrite length_app, length_replicate.
Qed.

(** A last component without slash is skipped by the second loop. *)
Lemma skip_to_slash_component p b :
  slash ∉ b →
  skip_to_slash (p ++ b) (length p + length b) = skip_to_slash p (length p).
Proof.
  induction b as [|c b IH] using rev_ind; intros Hb.
  - rewrite Nat.add_0_r. by apply skip_to_slash_app_l.
  - rewrite app_assoc.
    replace (length p + length (b ++ [c]))%nat with (S (length (p ++ b)))
      by (rewrite !length_app; simpl; lia).
    rewrite skip_to_slash_snoc.
    destruct (Ascii.eqb_spec c slash) as [->|Hc]; [set_solver|].
    rewrite length_app. apply IH. set_solver.
Qed.

Lemma skip_to_slash_no_slash b :
  slash ∉ b → skip_to_slash b (length b) = O.
Proof. intros Hb. exact (skip_to_slash_component [] b Hb). Qed.

Lemma rstrip_snoc s c :
  rstrip (s ++ [c]) = if Ascii.eqb c slash then rstrip s else s ++ [c].
Proof.
  induction s as [|x s IH]; simpl; [done|]. rewrite IH.
  destruct (Ascii.eqb c slash); [done|].
  by destruct s.
Qed.

(** The first loop computes the length of [rstrip]. *)
Lemma take_strip_slashes s : take (strip_slashes s (length s)) s = rstrip s.
Proof.
  induction s as [|c s IH] using rev_ind; [done|].
  rewrite length_app, Nat.add_1_r, strip_slashes_snoc, rstrip_snoc.
  destruct (Ascii.eqb c slash).
  - rewrite take_app_le by apply strip_slashes_le. done.
  - apply take_ge. rewrite length_app. simpl. lia.
Qed.

Lemma strip_slashes_all_slashes s :
  strip_slashes s (length s) = O → Forall (eq slash) s.
Proof.
  induction s as [|c s IH] using rev_ind; [done|].
  rewrite length_app, Nat.add_1_r, strip_slashes_snoc.
  destruct (Ascii.eqb_spec c slash) as [->|Hc]; [|done].
  intros H. apply Forall_app. split; [auto|]. by apply Forall_singleton.
Qed.

Lemma all_slashes_strip_slashes s n :
  Forall (eq slash) s → (n ≤ length s)%nat → strip_slashes s n = O.
Proof.
  intros Hall. induction n as [|n IH]; simpl; [done|]. intros Hn.
  assert (char_at s n = slash) as ->.
  { unfold char_at. destruct (nth_lookup_or_length s n zero) as [Hl|]; [|lia].
    symmetry. eapply Forall_lookup_1; [done|]. apply Hl. }
  rewrite Ascii.eqb_refl. apply IH. lia.
Qed.
End PathLoops.

(** ** [ssh_dirname] on paths with a directory part *)

Section Dirname.
Implicit Types (d b p : list ascii) (k j : nat) (ok : bool).

Lemma ssh_dirname_Some ok p :
  p ≠ [] → ssh_dirname ok (Some p) = ssh_dirname_body ok p.
Proof. by destruct p. Qed.

Lemma ssh_basename_Some ok p :
  p ≠ [] → ssh_basename ok (Some p) = ssh_basename_body ok p.
Proof. by destruct p. Qed.

Lemma not_all_slashes_strip d :
  ¬ Forall (eq slash) d → (0 < strip_slashes d (length d))%nat.
Proof.
  intros Hd. destruct (strip_slashes d (length d)) eqn:E; [|lia].
  by apply strip_slashes_all_slashes in E.
Qed.

(** Slashes at the end of the path do not count. *)
Lemma ssh_dirname_body_trailing ok d j :
  ¬ Forall (eq slash) d →
  Z.of_nat (length (d ++ replicate j slash)) < 2 ^ 32 →
  ssh_dirname_body ok (d ++ replicate j slash) = ssh_dirname_body ok d.
Proof.
  intros Hd Hlen. unfold ssh_dirname_body, strlen, copy_prefix.
  rewrite to_uint_small by done.
  rewrite to_uint_small by (rewrite length_app in Hlen; lia).
  rewrite length_app, length_replicate, strip_slashes_trailing.
  pose proof (not_all_slashes_strip d Hd) as Hpos.
  pose proof (strip_slashes_le d (length d)) as Hle.
  set (n := strip_slashes d (length d)) in *.
  rewrite skip_to_slash_app_l by done.
  pose proof (skip_to_slash_le d n) as Hle2.
  set (n2 := skip_to_slash d n) in *.
  rewrite strip_slashes_app_l by lia.
  pose proof (strip_slashes_le d n2) as Hle3.
  rewrite take_app_le by lia. done.
Qed.

(** With a last component in sight, the answer is what stands in front of
    the separating slashes, without its own trailing slashes. *)
Lemma ssh_dirname_body_component ok d k b :
  d ≠ [] → ¬ Forall (eq slash) d → slash ∉ b → b ≠ [] →
  Z.of_nat (length (d ++ replicate (S k) slash ++ b)) < 2 ^ 32 →
  ssh_dirname_body ok (d ++ replicate (S k) slash ++ b)
  = strdup ok (rstrip d).
Proof.
  intros Hne Hd Hb Hbne Hlen.
  unfold ssh_dirname_body, strlen, copy_prefix, strdup.
  rewrite to_uint_small by done.
  destruct b as [|c b' _] using rev_ind; [done|].
  assert (c ≠ slash) as Hc by set_solver.
  assert (Ascii.eqb c slash = false) as Hcb by by apply Ascii.eqb_neq.
  set (sep := replicate (S k) slash) in *.
  (* the first loop stops at once *)
  assert (strip_slashes (d ++ sep ++ b' ++ [c]) (length (d ++ sep ++ b' ++ [c]))
          = length (d ++ sep ++ b' ++ [c])) as ->.
  { rewrite !app_assoc, length_app, Nat.add_1_r.
    by rewrite strip_slashes_snoc, Hcb. }
  (* the second loop runs back over the last component *)
  assert (skip_to_slash (d ++ sep ++ b' ++ [c]) (length (d ++ sep ++ b' ++ [c]))
          = length (d ++ sep)) as ->.
  { rewrite (app_assoc d sep), (length_app (d ++ sep)).
    rewrite skip_to_slash_component by done.
    subst sep. rewrite replicate_S_end, app_assoc.
    rewrite (length_app _ [slash]), Nat.add_1_r.
    by rewrite skip_to_slash_snoc, Ascii.eqb_refl. }
  assert (0 < length d)%nat by (destruct d; [done|simpl; lia]).
  assert (length (d ++ sep) = length d + S k)%nat as Hsep
    by (subst sep; by rewrite length_app, length_replicate).
  rewrite Hsep.
  destruct (Nat.eqb_spec (length d + S k) 0); [lia|].
  destruct (Nat.eqb_spec (length d + S k) 1); [lia|].
  (* the third loop removes the separating slashes and those of [d] *)
  rewrite (app_assoc d sep), strip_slashes_app_l by lia.
  subst sep. rewrite strip_slashes_trailing.
  pose proof (strip_slashes_le d (length d)).
  rewrite <-app_assoc, take_app_le by done.
  rewrite take_strip_slashes.
  destruct (Nat.eqb_spec (length (d ++ replicate (S k) slash ++ b' ++ [c])) 0)
    as [E|]; [|done].
  rewrite !length_app in E. lia.
Qed.
End Dirname.



(** ** Paths that do not fit an [unsigned int] *)




(** ** The fixed answers of the path helpers *)

Section PathBaseCases.
Implicit Types (p : list ascii) (k n : nat) (ok : bool).

Lemma ssh_dirname_NULL_or_empty ok :
  ssh_dirname ok None = strdup ok (cstr ".") ∧
  ssh_dirname ok (Some []) = strdup ok (cstr ".").
Proof. done. Qed.

Lemma ssh_basename_NULL_or_empty ok :
  ssh_basename ok None = strdup ok (cstr ".") ∧
  ssh_basename ok (Some []) = strdup ok (cstr ".").
Proof. done. Qed.

Lemma all_slashes_replicate n : Forall (eq slash) (replicate n slash).
Proof. apply Forall_replicate. done. Qed.

Lemma ssh_dirname_only_slashes ok n :
  (0 < n)%nat → Z.of_nat n < 2 ^ 32 →
  ssh_dirname ok (Some (replicate n slash)) = strdup ok (cstr "/").
Proof.
  intros Hn Hlen. rewrite ssh_dirname_Some by (destruct n; [lia|done]).
  unfold ssh_dirname_body, strlen. rewrite length_replicate.
  rewrite to_uint_small by done.
  rewrite all_slashes_strip_slashes;
    [done | apply all_slashes_replicate | by rewrite length_replicate].
Qed.

Lemma ssh_basename_only_slashes ok n :
  (0 < n)%nat → Z.of_nat n < 2 ^ 32 →
  ssh_basename ok (Some (replicate n slash)) = strdup ok (cstr "/").
Proof.
  intros Hn Hlen. rewrite ssh_basename_Some by (destruct n; [lia|done]).
  unfold ssh_basename_body, strlen. rewrite length_replicate.
  rewrite to_uint_small by done.
  rewrite all_slashes_strip_slashes;
    [done | apply all_slashes_replicate | by rewrite length_replicate].
Qed.

(** [ssh_dirname] does not count trailing slashes. *)
Lemma ssh_dirname_trailing_slashes ok p k :
  ¬ Forall (eq slash) p →
  Z.of_nat (length (p ++ replicate k slash)) < 2 ^ 32 →
  ssh_dirname ok (Some (p ++ replicate k slash)) = ssh_dirname ok (Some p).
Proof.
  intros Hp Hlen.
  assert (p ≠ []) by (intros ->; by apply Hp).
  rewrite !ssh_dirname_Some by (by destruct p).
  by apply ssh_dirname_body_trailing.
Qed.

(** [ssh_basename] on a path without directory part: once the second loop
    has run down to 0 the whole [path] is duplicated, trailing slashes
    included. *)
Lemma ssh_basename_no_directory ok p k :
  p ≠ [] → slash ∉ p →
  Z.of_nat (length (p ++ replicate k slash)) < 2 ^ 32 →
  ssh_basename ok (Some (p ++ replicate k slash))
  = strdup ok (p ++ replicate k slash).
Proof.
  intros Hne Hp Hlen. rewrite ssh_basename_Some by (by destruct p).
  unfold ssh_basename_body, strlen. rewrite to_uint_small by done.
  rewrite length_app, length_replicate, strip_slashes_trailing.
  destruct p as [|c p' _] using rev_ind; [done|].
  assert (Ascii.eqb c slash = false) as Hc
    by (apply Ascii.eqb_neq; set_solver).
  rewrite length_app, Nat.add_1_r, strip_slashes_snoc, Hc. simpl.
  rewrite <-(app_assoc p' [c]). cbn [app]. rewrite char_at_snoc, Hc.
  rewrite skip_to_slash_app_l by done.
  rewrite skip_to_slash_no_slash by set_solver. done.
Qed.
End PathBaseCases.

(** C2: the POSIX reading, under which trailing slashes never count, fails
    for [ssh_basename] on a path that has no directory part: on ["abc/"] the
    answer is ["abc/"] and not ["abc"].  The other parts of the contract
    hold ([ssh_dirname_NULL_or_empty], [ssh_basename_NULL_or_empty],
    [ssh_dirname_only_slashes], [ssh_basename_only_slashes],
    [ssh_dirname_trailing_slashes]). *)
Theorem ssh_basename_trailing_slash_kept :
  ssh_basename true (Some (cstr "abc/")) = Some (cstr "abc/") ∧
  ssh_basename true (Some (cstr "abc/")) ≠ Some (cstr "abc").
Proof. split; [reflexivity | discriminate]. Qed.

(** * More about the list *)

Section ListFrame.
Implicit Types (m : memory) (p q it : option positive) (a : positive).

(** The scan changes nothing and stops on [NULL] or on the iterator. *)
Lemma remove_scan_Ok fuel it : ∀ prev p m prev' p' m',
  remove_scan fuel it prev p m = Ok ((prev', p'), m') →
  m' = m ∧ (p' = NULL ∨ p' = it).
Proof.
  induction fuel as [|fuel IH]; intros prev p m prev' p' m'; simpl;
    case_bool_decide as Hc; try done.
  - intros [= <- <- <-]. split; [done|].
    destruct p as [b|]; [|by left]. right.
    destruct (decide (Some b = it)); [done|]. destruct Hc. done.
  - unfold_M. destruct p as [b|]; [|done].
    destruct (cells m !! b) as [n|]; [|done]. simpl. apply IH.
  - intros [= <- <- <-]. split; [done|].
    destruct p as [b|]; [|by left]. right.
    destruct (decide (Some b = it)); [done|]. destruct Hc. done.
Qed.

Lemma data_of_insert_live (h : gmap positive ssh_iterator) b n v :
  h !! b = Some n →
  data <$> <[b := Iterator v (data n)]> h = data <$> h.
Proof.
  intros Hb. rewrite fmap_insert. apply insert_id.
  by rewrite lookup_fmap, Hb.
Qed.

(** Whenever [ssh_list_remove] returns, either nothing has changed or the
    iterator's cell, which was live, is gone and every other cell stores
    what it stored. *)
Lemma ssh_list_remove_frame fuel it m m' :
  ssh_list_remove fuel it m = Ok (tt, m') →
  m' = m ∨
  ∃ a, it = Some a ∧ is_Some (cells m !! a) ∧
       data_of m' = delete a (data_of m).
Proof.
  unfold ssh_list_remove. unfold bind at 1, get_root. simpl.
  unfold bind at 1.
  destruct (remove_scan fuel it NULL (root (lst m)) m)
    as [[[prev p] m1]| |] eqn:Hscan; [|done..].
  apply remove_scan_Ok in Hscan as [-> Hp].
  destruct p as [a|]; [|intros [= <-]; by left].
  destruct Hp as [|<-]; [done|]. intros Hrun. right. exists a.
  split; [done|]. unfold data_of. destruct m as [h [r e]].
  unfold_M. destruct prev as [b|]; simpl in *.
  - destruct (h !! a) as [na|] eqn:Ha; [|done]. simpl in Hrun.
    split; [done|].
    destruct (h !! b) as [nb|] eqn:Hb; [|done]. simpl in Hrun.
    assert (is_Some (<[b:={| next := next na; data := data nb |}]> h !! a))
      as [na' Ha']
      by (rewrite lookup_insert; destruct (decide (b = a)); rewrite ?Ha; eauto).
    repeat (case_bool_decide; simpl in Hrun; rewrite ?Ha' in Hrun;
            simpl in Hrun);
      injection Hrun as <-; simpl;
      by rewrite fmap_delete, (data_of_insert_live h b nb).
  - destruct (h !! a) as [na|] eqn:Ha.
    + split; [done|].
      repeat (case_bool_decide; simpl in Hrun; rewrite ?Ha in Hrun;
              simpl in Hrun);
        injection Hrun as <-; simpl; by rewrite fmap_delete.
    + repeat (case_bool_decide; simpl in Hrun; rewrite ?Ha in Hrun;
              simpl in Hrun); done.
Qed.
End ListFrame.

Section ListMore.
Implicit Types (m : memory) (p q it : option positive) (a : positive).
Implicit Types (xs ys : list (positive * option positive)).

(** [_ssh_list_get_head] written out, when [root] is a live cell. *)
Lemma _ssh_list_get_head_live m a n :
  root (lst m) = Some a → cells m !! a = Some n →
  _ssh_list_get_head m
  = Ok (data n,
        Memory (delete a (cells m))
               (List (next n)
                     (if bool_decide (end_ (lst m) = Some a)
                      then NULL else end_ (lst m)))).
Proof.
  intros Hr Ha. destruct m as [h [r e]]. simpl in *. subst r.
  unfold _ssh_list_get_head. unfold_M. simpl. repeat (rewrite Ha; simpl).
  case_bool_decide; simpl; rewrite Ha; done.
Qed.

(** [ssh_list_remove] of the cell [root] points to, written out. *)
Lemma ssh_list_remove_root m a n fuel :
  root (lst m) = Some a → cells m !! a = Some n →
  ssh_list_remove fuel (Some a) m
  = Ok (tt,
        Memory (delete a (cells m))
               (List (next n)
                     (if bool_decide (end_ (lst m) = Some a)
                      then NULL else end_ (lst m)))).
Proof.
  intros Hr Ha. destruct m as [h [r e]]. simpl in *. subst r.
  unfold ssh_list_remove. unfold_M.
  destruct fuel; simpl; rewrite bool_decide_eq_false_2 by naive_solver;
    simpl; rewrite (bool_decide_eq_true_2 (Some a = Some a)) by done;
    simpl; rewrite Ha; simpl;
    case_bool_decide; simpl; rewrite Ha; done.
Qed.

Lemma is_list_absurd m xs a d ys :
  is_list m (xs ++ (a, d) :: ys) → ¬ is_list m (xs ++ ys).
Proof.
  intros (_ & H1 & _) (_ & H2 & _).
  pose proof (lseg_NULL_unique _ _ _ _ H1 H2) as Heq.
  apply (f_equal length) in Heq. rewrite !length_app in Heq. simpl in Heq. lia.
Qed.

Lemma lookup_delete_cons_decide
    (h : gmap positive ssh_iterator) a (l : list positive) b :
  (if decide (b ∈ l) then None else delete a h !! b)
  = (if decide (b ∈ a :: l) then None else h !! b).
Proof.
  destruct (decide (b = a)) as [->|Hne].
  - rewrite lookup_delete_eq.
    rewrite (decide_True (P := a ∈ a :: l)) by apply list_elem_of_here.
    by destruct (decide (a ∈ l)).
  - rewrite lookup_delete_ne by done.
    destruct (decide (b ∈ l)) as [Hin|Hnot].
    + rewrite decide_True; [done|]. by apply list_elem_of_further.
    + rewrite decide_False; [done|]. intros [?|?]%elem_of_cons; done.
Qed.

(** Releasing a chain cell by cell. *)
Lemma ssh_list_free_loop_lseg xs : ∀ h l p fuel,
  NoDup xs.*1 → lseg h p xs NULL → (length xs ≤ fuel)%nat →
  ∃ h', ssh_list_free_loop fuel p (Memory h l) = Ok (tt, Memory h' l) ∧
        ∀ b, h' !! b = if decide (b ∈ xs.*1) then None else h !! b.
Proof.
  induction xs as [|[a d] xs IH]; intros h l p fuel Hnd Hseg Hfuel.
  - simpl in Hseg. subst p. exists h. split; [by destruct fuel|].
    intros b. rewrite decide_False; [done|]. apply not_elem_of_nil.
  - simpl in Hseg. destruct Hseg as (-> & nx & Ha & Hseg).
    rewrite fmap_cons in Hnd. apply NoDup_cons in Hnd as [Hnin Hnd].
    destruct fuel as [|fuel]; [simpl in Hfuel; lia|].
    destruct (IH (delete a h) l nx fuel Hnd) as (h' & Hrun & Hh');
      [by apply lseg_delete_ne | simpl in Hfuel; lia |].
    exists h'. split.
    + simpl. unfold_M. simpl. repeat (rewrite Ha; simpl). exact Hrun.
    + intros b. rewrite Hh', fmap_cons. cbn [fst].
      apply lookup_delete_cons_decide.
Qed.

(** Following [next] round a cycle that does not hold the iterator, the
    scan never stops. *)
Lemma remove_scan_cycle fuel it m : ∀ xs p prev,
  xs ≠ [] → lseg (cells m) p xs p →
  (∀ a, a ∈ xs.*1 → Some a ≠ it) →
  remove_scan fuel it prev p m = OutOfFuel.
Proof.
  induction fuel as [|fuel IH]; intros [|[a d] xs] p prev Hne Hseg Hnot;
    try done; simpl in Hseg; destruct Hseg as (-> & nx & Ha & Hseg); simpl;
    (rewrite bool_decide_eq_true_2;
       [|split; [done | apply Hnot; apply list_elem_of_here]]);
    [done|].
  unfold_M. rewrite Ha. simpl.
  apply (IH (xs ++ [(a, d)])).
  - by destruct xs.
  - apply lseg_app. exists (Some a). split; [done|].
    simpl. split; [done|]. exists nx. done.
  - intros b Hb. apply Hnot. rewrite fmap_app in Hb. rewrite fmap_cons.
    apply elem_of_app in Hb as [Hb|Hb].
    + by apply list_elem_of_further.
    + apply list_elem_of_singleton in Hb as ->. apply list_elem_of_here.
Qed.

(** Taking the head off, with the cells that are left. *)
Lemma pop_all_is_list xs : ∀ m ys,
  is_list m (xs ++ ys) →
  ∃ m', pop_all (length xs) m = Ok (xs.*2, m') ∧ is_list m' ys ∧
        ∀ b, cells m' !! b
             = if decide (b ∈ xs.*1) then None else cells m !! b.
Proof.
  induction xs as [|[a d] xs IH]; intros m ys Hl.
  - exists m. split; [done|]. split; [done|]. intros b.
    rewrite decide_False; [done|]. apply not_elem_of_nil.
  - destruct (_ssh_list_get_head_cons m a d (xs ++ ys) Hl) as (m1 & Hpop & Hl1).
    pose proof Hl as (_ & (Hr & nx & Ha & _) & _).
    rewrite (_ssh_list_get_head_live m a _ Hr Ha) in Hpop.
    injection Hpop as <-.
    destruct (IH _ ys Hl1) as (m' & Hrun & Hl' & Hcells).
    exists m'. split; [|split; [done|]].
    + simpl. unfold bind.
      rewrite (_ssh_list_get_head_live m a _ Hr Ha). simpl.
      unfold bind in Hrun. by rewrite Hrun.
    + intros b. rewrite Hcells. cbn [cells]. rewrite fmap_cons. cbn [fst].
      apply lookup_delete_cons_decide.
Qed.
End ListMore.

(** X1: whenever [ssh_list_remove] returns, it has either changed nothing
    or released the cell of the iterator, which was live; it releases no
    other cell, allocates none, and every other cell stores the data
    reference it stored before. *)
Theorem ssh_list_remove_touches_only_iterator
    (fuel : nat) (it : option positive) (m m' : memory) :
  ssh_list_remove fuel it m = Ok (tt, m') →
  m' = m ∨
  ∃ a, it = Some a ∧ is_Some (cells m !! a) ∧
       data_of m' = delete a (data_of m).
Proof. apply ssh_list_remove_frame. Qed.

Lemma ssh_list_remove_touches_only_iterator_witness :
  ssh_list_remove 0 (Some 1%positive) mem12
  = Ok (tt, Memory (<[2%positive := Iterator NULL (Some 20%positive)]> ∅)
                   (List (Some 2%positive) (Some 2%positive))) ∧
  (Memory (<[2%positive := Iterator NULL (Some 20%positive)]> ∅)
          (List (Some 2%positive) (Some 2%positive)) = mem12 ∨
   ∃ a, Some 1%positive = Some a ∧ is_Some (cells mem12 !! a) ∧
        data_of (Memory (<[2%positive := Iterator NULL (Some 20%positive)]> ∅)
                        (List (Some 2%positive) (Some 2%positive)))
        = delete a (data_of mem12)).
Proof.
  assert (ssh_list_remove 0 (Some 1%positive) mem12
          = Ok (tt, Memory (<[2%positive := Iterator NULL (Some 20%positive)]> ∅)
                           (List (Some 2%positive) (Some 2%positive)))) as Hrun
    by (vm_compute; reflexivity).
  split; [exact Hrun|].
  exact (ssh_list_remove_touches_only_iterator 0 (Some 1%positive) mem12 _ Hrun).
Defined.

(** X2: [ssh_list_remove] of a cell of the chain returns; the chain is then
    the old one without that cell, in the old order and with the old data
    references, the cell is released and no other cell is. *)
Theorem ssh_list_remove_unlinks
    (m : memory) (xs ys : list (positive * option positive))
    (a : positive) (d : option positive) (fuel : nat) :
  is_list m (xs ++ (a, d) :: ys) →
  (length xs ≤ fuel)%nat →
  ∃ m', ssh_list_remove fuel (Some a) m = Ok (tt, m') ∧
        is_list m' (xs ++ ys) ∧
        yields m' (xs.*2 ++ ys.*2) ∧
        cells m' !! a = None ∧
        data_of m' = delete a (data_of m).
Proof.
  intros Hl Hfuel.
  destruct (ssh_list_remove_is_list m xs a d ys fuel Hl Hfuel)
    as (m' & Hrun & Hl').
  exists m'. split; [done|]. split; [done|].
  split; [rewrite <-fmap_app; by apply is_list_yields|].
  destruct (ssh_list_remove_frame fuel (Some a) m m' Hrun)
    as [->|(a' & [= <-] & _ & Hdata)].
  { by apply is_list_absurd in Hl. }
  split; [|done].
  assert (data_of m' !! a = None) as Hnone
    by (rewrite Hdata; apply lookup_delete_eq).
  unfold data_of in Hnone. rewrite lookup_fmap in Hnone.
  by destruct (cells m' !! a).
Qed.

Lemma ssh_list_remove_unlinks_witness :
  ∃ m', ssh_list_remove 1 (Some 2%positive) mem12 = Ok (tt, m') ∧
        is_list m' [(1%positive, Some 10%positive)] ∧
        yields m' [Some 10%positive] ∧
        cells m' !! 2%positive = None ∧
        data_of m' = delete 2%positive (data_of mem12).
Proof.
  apply (ssh_list_remove_unlinks mem12 [(1%positive, Some 10%positive)] []
           2%positive (Some 20%positive) 1).
  - exact mem12_is_list.
  - simpl. lia.
Defined.

(** X3: when [root] points to a live cell, [_ssh_list_get_head] returns the
    data reference stored there and leaves the very memory that
    [ssh_list_remove] of [ssh_list_get_iterator] leaves, whatever the other
    cells are. *)
Theorem _ssh_list_get_head_as_remove
    (m : memory) (a : positive) (n : ssh_iterator) (fuel : nat) :
  root (lst m) = Some a →
  cells m !! a = Some n →
  ∃ m', _ssh_list_get_head m = Ok (data n, m') ∧
        ssh_list_remove fuel (ssh_list_get_iterator (lst m)) m = Ok (tt, m') ∧
        cells m' = delete a (cells m).
Proof.
  intros Hr Ha. eexists. split; [by apply _ssh_list_get_head_live|].
  unfold ssh_list_get_iterator. rewrite Hr.
  split; [by apply ssh_list_remove_root | done].
Qed.

Lemma _ssh_list_get_head_as_remove_witness :
  ∃ m', _ssh_list_get_head mem12 = Ok (Some 10%positive, m') ∧
        ssh_list_remove 0 (ssh_list_get_iterator (lst mem12)) mem12
          = Ok (tt, m') ∧
        cells m' = delete 1%positive (cells mem12).
Proof.
  apply (_ssh_list_get_head_as_remove mem12 1%positive
           (Iterator (Some 2%positive) (Some 10%positive)) 0);
    reflexivity.
Defined.

(** X4: on a chain [xs ++ ys], as many calls of [_ssh_list_get_head] as
    [xs] has cells return the data references of [xs] in order, leave the
    chain [ys], and release the cells of [xs] and no other. *)
Theorem pop_all_drains
    (m : memory) (xs ys : list (positive * option positive)) :
  is_list m (xs ++ ys) →
  ∃ m', pop_all (length xs) m = Ok (xs.*2, m') ∧
        is_list m' ys ∧ yields m' ys.*2 ∧
        ∀ b, cells m' !! b
             = if decide (b ∈ xs.*1) then None else cells m !! b.
Proof.
  intros Hl. destruct (pop_all_is_list xs m ys Hl) as (m' & Hrun & Hl' & Hc).
  exists m'. split; [done|]. split; [done|].
  split; [by apply is_list_yields | done].
Qed.

Lemma pop_all_drains_witness :
  ∃ m', pop_all 2 mem12 = Ok ([Some 10%positive; Some 20%positive], m') ∧
        is_list m' [] ∧ yields m' [] ∧
        ∀ b, cells m' !! b
             = if decide (b ∈ [1%positive; 2%positive])
               then None else cells mem12 !! b.
Proof.
  apply (pop_all_drains mem12
           [(1%positive, Some 10%positive); (2%positive, Some 20%positive)] []).
  exact mem12_is_list.
Defined.

(** X5: [ssh_list_free] on a well-shaped list returns, having released each
    cell of the chain once and left every other cell as it was. *)
Theorem ssh_list_free_releases_chain
    (m : memory) (xs : list (positive * option positive)) (fuel : nat) :
  is_list m xs →
  (length xs ≤ fuel)%nat →
  ∃ m', ssh_list_free fuel m = Ok (tt, m') ∧
        ∀ b, cells m' !! b
             = if decide (b ∈ xs.*1) then None else cells m !! b.
Proof.
  intros (Hnd & Hseg & _) Hfuel. destruct m as [h l]. simpl in *.
  destruct (ssh_list_free_loop_lseg xs h l (root l) fuel Hnd Hseg Hfuel)
    as (h' & Hrun & Hh').
  exists (Memory h' l). split; [|done].
  unfold ssh_list_free, bind, get_root. simpl. exact Hrun.
Qed.

Lemma ssh_list_free_releases_chain_witness :
  ∃ m', ssh_list_free 2 mem12 = Ok (tt, m') ∧
        ∀ b, cells m' !! b
             = if decide (b ∈ [1%positive; 2%positive])
               then None else cells mem12 !! b.
Proof.
  apply (ssh_list_free_releases_chain mem12
           [(1%positive, Some 10%positive); (2%positive, Some 20%positive)] 2).
  - exact mem12_is_list.
  - simpl. lia.
Defined.

(** X6: a run of [ssh_list_add] calls on a well-shaped list returns; a call
    answers [SSH_ERROR] exactly when the allocator gave it no cell, and the
    walk then yields the old data references followed by those of the calls
    that were given a cell, in call order. *)
Theorem add_all_skips_failed_calls
    (m : memory) (xs : list (positive * option positive))
    (calls : list (option positive * option positive)) :
  is_list m xs →
  malloc_fresh (dom (cells m)) calls.*1 →
  ∃ m', add_all calls m = Ok (rc_of <$> calls, m') ∧
        is_list m' (xs ++ added calls) ∧
        yields m' (xs.*2 ++ (added calls).*2).
Proof.
  intros Hl Hfresh.
  destruct (add_all_is_list calls m xs Hl Hfresh) as (m' & Hrun & Hl').
  exists m'. split; [done|]. split; [done|].
  rewrite <-fmap_app. by apply is_list_yields.
Qed.

Lemma add_all_skips_failed_calls_witness :
  ∃ m', add_all [(Some 3%positive, Some 30%positive); (NULL, Some 40%positive);
                 (Some 5%positive, Some 50%positive)] mem12
          = Ok ([SSH_OK; SSH_ERROR; SSH_OK], m') ∧
        is_list m' ([(1%positive, Some 10%positive); (2%positive, Some 20%positive)]
                    ++ [(3%positive, Some 30%positive); (5%positive, Some 50%positive)]) ∧
        yields m' ([Some 10%positive; Some 20%positive]
                   ++ [Some 30%positive; Some 50%positive]).
Proof.
  apply (add_all_skips_failed_calls mem12
           [(1%positive, Some 10%positive); (2%positive, Some 20%positive)]
           [(Some 3%positive, Some 30%positive); (NULL, Some 40%positive);
            (Some 5%positive, Some 50%positive)]).
  - exact mem12_is_list.
  - simpl. set_solver.
Defined.

Lemma remove_scan_into_cycle fuel it m : ∀ pre p0 prev p cyc,
  lseg (cells m) p0 pre p →
  cyc ≠ [] → lseg (cells m) p cyc p →
  (∀ a, a ∈ pre.*1 ++ cyc.*1 → Some a ≠ it) →
  remove_scan fuel it prev p0 m = OutOfFuel.
Proof.
  induction fuel as [|fuel IH]; intros pre p0 prev p cyc Hpre Hne Hcyc Hnot.
  - destruct pre as [|[a d] pre]; simpl in Hpre.
    + subst p0. apply (remove_scan_cycle 0 it m cyc); [done..|].
      intros a Ha. apply Hnot. by apply elem_of_app; right.
    + destruct Hpre as (-> & _). simpl.
      rewrite bool_decide_eq_true_2; [done|].
      split; [done|]. apply Hnot. apply list_elem_of_here.
  - destruct pre as [|[a d] pre]; simpl in Hpre.
    + subst p0. apply (remove_scan_cycle (S fuel) it m cyc); [done..|].
      intros a Ha. apply Hnot. by apply elem_of_app; right.
    + destruct Hpre as (-> & nx & Ha & Hpre). simpl.
      rewrite bool_decide_eq_true_2
        by (split; [done | apply Hnot; apply list_elem_of_here]).
      unfold_M. rewrite Ha. simpl.
      apply (IH pre nx (Some a) p cyc); [done..|].
      intros b Hb. apply Hnot. rewrite fmap_cons. simpl.
      by apply list_elem_of_further.
Qed.

(** X7: when following [next] from [root] leads into a cycle and the
    iterator is no cell on the way, [ssh_list_remove] never returns: its
    loop is still running whatever fuel it is given. *)
Theorem ssh_list_remove_cycle_diverges
    (m : memory) (pre cyc : list (positive * option positive))
    (p it : option positive) (fuel : nat) :
  lseg (cells m) (root (lst m)) pre p →
  cyc ≠ [] → lseg (cells m) p cyc p →
  (∀ a, a ∈ pre.*1 ++ cyc.*1 → Some a ≠ it) →
  ssh_list_remove fuel it m = OutOfFuel.
Proof.
  intros Hpre Hne Hcyc Hnot.
  unfold ssh_list_remove. unfold bind at 1, get_root. simpl.
  unfold bind at 1.
  by rewrite (remove_scan_into_cycle fuel it m pre _ NULL p cyc).
Qed.

(** Cell 1 points to cell 2, which points to itself. *)
Lemma ssh_list_remove_cycle_diverges_witness :
  ssh_list_remove 1000 (Some 7%positive)
    (Memory (<[1%positive := Iterator (Some 2%positive) NULL]>
               (<[2%positive := Iterator (Some 2%positive) NULL]> ∅))
            (List (Some 1%positive) (Some 2%positive)))
  = OutOfFuel.
Proof.
  apply (ssh_list_remove_cycle_diverges _ [(1%positive, NULL)]
           [(2%positive, NULL)] (Some 2%positive) (Some 7%positive) 1000).
  - simpl. split; [reflexivity|]. eexists. split; reflexivity.
  - discriminate.
  - simpl. split; [reflexivity|]. eexists. split; reflexivity.
  - intros a Ha [= ->]. simpl in Ha. set_solver.
Defined.

(** * Removing twice *)

(** X8: [ssh_list_remove] of a cell of the chain, called a second time
    with the same iterator, finds nothing and changes nothing: the cell is
    not released twice. *)
Theorem ssh_list_remove_twice
    (m : memory) (xs ys : list (positive * option positive))
    (a : positive) (d : option positive) (fuel : nat) :
  is_list m (xs ++ (a, d) :: ys) →
  (length xs + length ys ≤ fuel)%nat →
  ∃ m', ssh_list_remove fuel (Some a) m = Ok (tt, m') ∧
        ssh_list_remove fuel (Some a) m' = Ok (tt, m').
Proof.
  intros Hl Hfuel.
  destruct (ssh_list_remove_is_list m xs a d ys fuel Hl) as (m' & Hrun & Hl');
    [lia|].
  exists m'. split; [done|].
  destruct Hl as (Hnd & _ & _). destruct Hl' as (_ & Hseg' & _).
  apply (ssh_list_remove_absent m' (xs ++ ys)); [done| |by rewrite length_app].
  intros b Hb [= ->].
  rewrite fmap_app, fmap_cons in Hnd. simpl in Hnd.
  apply NoDup_app in Hnd as (_ & Hdisj & [Hnin _]%NoDup_cons).
  rewrite fmap_app in Hb. apply elem_of_app in Hb as [Hb|Hb]; [|done].
  apply (Hdisj a Hb). apply list_elem_of_here.
Qed.

Lemma ssh_list_remove_twice_witness :
  ∃ m', ssh_list_remove 1 (Some 1%positive) mem12 = Ok (tt, m') ∧
        ssh_list_remove 1 (Some 1%positive) m' = Ok (tt, m').
Proof.
  apply (ssh_list_remove_twice mem12 [] [(2%positive, Some 20%positive)]
           1%positive (Some 10%positive) 1).
  - exact mem12_is_list.
  - simpl. lia.
Defined.

(** * More about the path helpers *)

Section PathMore.
Implicit Types (s p q d b : list ascii) (c : ascii) (n k j : nat) (ok : bool).

(** The first loop stops at once behind a component. *)
Lemma strip_slashes_component q b :
  b ≠ [] → slash ∉ b →
  strip_slashes (q ++ b) (length (q ++ b)) = length (q ++ b).
Proof.
  intros Hne Hb. destruct b as [|c b _] using rev_ind; [done|].
  assert (Ascii.eqb c slash = false) as Hc
    by (apply Ascii.eqb_neq; set_solver).
  rewrite app_assoc, (length_app _ [c]), Nat.add_1_r.
  by rewrite strip_slashes_snoc, Hc.
Qed.

Lemma strip_slashes_no_trailing b :
  b ≠ [] → slash ∉ b → strip_slashes b (length b) = length b.
Proof. exact (strip_slashes_component [] b). Qed.

Lemma to_uint_le n : (to_uint n ≤ n)%nat.
Proof.
  unfold to_uint.
  assert (Z.of_nat n mod 2 ^ 32 <= Z.of_nat n) by (apply Z.mod_le; lia).
  assert (0 <= Z.of_nat n mod 2 ^ 32) by (apply Z.mod_pos_bound; lia).
  lia.
Qed.

(** What the first loop leaves does not end in a slash. *)
Lemma strip_slashes_last s n :
  (n ≤ length s)%nat → last (take (strip_slashes s n) s) ≠ Some slash.
Proof.
  induction n as [|n IH]; intros Hn; [by rewrite take_0|].
  cbn [strip_slashes].
  destruct (Ascii.eqb_spec (char_at s n) slash) as [Heq|Hneq]; [apply IH; lia|].
  rewrite last_lookup, length_take, Nat.min_l by done. simpl.
  rewrite lookup_take_lt by lia.
  unfold char_at in Hneq.
  destruct (nth_lookup_or_length s n zero) as [Hl|]; [|lia].
  rewrite Hl. congruence.
Qed.

Lemma rstrip_not_all_slashes d :
  ¬ Forall (eq slash) d →
  ¬ Forall (eq slash) (rstrip d) ∧ rstrip (rstrip d) = rstrip d.
Proof.
  induction d as [|c d IH] using rev_ind; intros Hd; [by destruct Hd|].
  rewrite rstrip_snoc.
  destruct (Ascii.eqb_spec c slash) as [->|Hc].
  - apply IH. intros Hall. apply Hd. apply Forall_app. split; [done|].
    by apply Forall_singleton.
  - split; [done|]. rewrite rstrip_snoc.
    by destruct (Ascii.eqb_spec c slash).
Qed.

Lemma length_rstrip d : (length (rstrip d) ≤ length d)%nat.
Proof. rewrite <-take_strip_slashes, length_take. lia. Qed.

Lemma ssh_dirname_body_no_slash ok p k :
  p ≠ [] → slash ∉ p →
  Z.of_nat (length (p ++ replicate k slash)) < 2 ^ 32 →
  ssh_dirname_body ok (p ++ replicate k slash) = strdup ok (cstr ".").
Proof.
  intros Hne Hp Hlen. unfold ssh_dirname_body, strlen.
  rewrite to_uint_small by done.
  rewrite length_app, length_replicate, strip_slashes_trailing.
  rewrite strip_slashes_no_trailing by done.
  destruct (Nat.eqb_spec (length p) 0) as [E|_]; [by destruct p|].
  rewrite skip_to_slash_app_l by done.
  by rewrite skip_to_slash_no_slash.
Qed.

Lemma ssh_dirname_body_leading ok j b k :
  b ≠ [] → slash ∉ b →
  Z.of_nat (length (replicate (S j) slash ++ b ++ replicate k slash)) < 2 ^ 32 →
  ssh_dirname_body ok (replicate (S j) slash ++ b ++ replicate k slash)
  = strdup ok (if j is O then cstr "/" else []).
Proof.
  intros Hne Hb Hlen. unfold ssh_dirname_body, strlen.
  rewrite to_uint_small by done. set (lead := replicate (S j) slash) in *.
  assert (length lead = S j) as Hlead by apply length_replicate.
  rewrite (app_assoc lead b), (length_app (lead ++ b)), length_replicate.
  rewrite strip_slashes_trailing, strip_slashes_component by done.
  destruct (Nat.eqb_spec (length (lead ++ b)) 0) as [E|_];
    [rewrite length_app in E; lia|].
  rewrite skip_to_slash_app_l by done.
  rewrite length_app, skip_to_slash_component by done.
  assert (skip_to_slash lead (length lead) = S j) as ->.
  { subst lead. rewrite replicate_S_end, length_app, Nat.add_1_r.
    rewrite skip_to_slash_snoc, Ascii.eqb_refl.
    by rewrite length_replicate. }
  destruct j as [|j]; [done|]. simpl Nat.eqb. cbv iota.
  rewrite <-app_assoc, strip_slashes_app_l by lia.
  rewrite all_slashes_strip_slashes;
    [|apply Forall_replicate; done | lia].
  unfold copy_prefix, strdup. by rewrite take_0.
Qed.

Lemma ssh_basename_body_component ok d b k :
  b ≠ [] → slash ∉ b →
  Z.of_nat (length (d ++ slash :: b ++ replicate k slash)) < 2 ^ 32 →
  ssh_basename_body ok (d ++ slash :: b ++ replicate k slash) = strdup ok b.
Proof.
  intros Hne Hb Hlen. unfold ssh_basename_body, strlen.
  rewrite to_uint_small by done.
  change (d ++ slash :: b ++ replicate k slash)
    with (d ++ [slash] ++ b ++ replicate k slash) in *.
  rewrite !app_assoc in *. rewrite <-(app_assoc d [slash] b) in *.
  rewrite (length_app _ (replicate k slash)), length_replicate in *.
  rewrite strip_slashes_trailing.
  rewrite (app_assoc d [slash] b) in *.
  rewrite strip_slashes_component by done.
  destruct (Nat.eqb_spec (length ((d ++ [slash]) ++ b)) 0) as [E|_];
    [rewrite !length_app in E; simpl in E; lia|].
  rewrite skip_to_slash_app_l by done.
  rewrite (length_app (d ++ [slash]) b), skip_to_slash_component by done.
  rewrite (length_app d [slash]), Nat.add_1_r.
  rewrite skip_to_slash_snoc, Ascii.eqb_refl. simpl Nat.ltb. cbv iota.
  rewrite <-(app_assoc (d ++ [slash]) b).
  replace (S (length d)) with (length (d ++ [slash]))
    by (rewrite length_app; simpl; lia).
  rewrite drop_app_length.
  rewrite to_uint_small
    by (rewrite !length_app, ?length_replicate in *; simpl in *; lia).
  rewrite (length_app b), length_replicate, strip_slashes_trailing.
  rewrite strip_slashes_no_trailing by done. unfold copy_prefix, strdup.
  rewrite take_app_length.
  destruct (Nat.ltb_spec 0 (length (d ++ [slash]))) as [_|E]; [done|].
  rewrite length_app in E. simpl in E. lia.
Qed.
End PathMore.

(** X9: on a path without slash, trailing slashes apart, [ssh_dirname]
    answers ["."]. *)
Theorem ssh_dirname_no_slash (ok : bool) (p : list ascii) (k : nat) :
  p ≠ [] → slash ∉ p →
  Z.of_nat (length (p ++ replicate k slash)) < 2 ^ 32 →
  ssh_dirname ok (Some (p ++ replicate k slash)) = strdup ok (cstr ".").
Proof.
  intros Hne Hp Hlen. rewrite ssh_dirname_Some by (by destruct p).
  by apply ssh_dirname_body_no_slash.
Qed.

Lemma ssh_dirname_no_slash_witness :
  ssh_dirname true (Some (cstr "usr//")) = Some (cstr ".").
Proof.
  apply (ssh_dirname_no_slash true (cstr "usr") 2).
  - discriminate.
  - intros H. repeat (apply elem_of_cons in H as [H|H]; [discriminate H|]).
    by apply elem_of_nil in H.
  - simpl. lia.
Defined.

(** X10: on a path made of leading slashes and one component, trailing
    slashes apart, [ssh_dirname] answers ["/"] when there is one leading
    slash and the empty string when there are more: the third loop then
    runs down to 0 and nothing is copied. *)
Theorem ssh_dirname_leading_slashes
    (ok : bool) (j : nat) (b : list ascii) (k : nat) :
  b ≠ [] → slash ∉ b →
  Z.of_nat (length (replicate (S j) slash ++ b ++ replicate k slash)) < 2 ^ 32 →
  ssh_dirname ok (Some (replicate (S j) slash ++ b ++ replicate k slash))
  = strdup ok (if j is O then cstr "/" else []).
Proof.
  intros Hne Hb Hlen. rewrite ssh_dirname_Some by done.
  by apply ssh_dirname_body_leading.
Qed.

Lemma ssh_dirname_leading_slashes_witness :
  ssh_dirname true (Some (cstr "/usr/")) = Some (cstr "/") ∧
  ssh_dirname true (Some (cstr "//usr")) = Some [].
Proof.
  assert (cstr "usr" ≠ []) as Hne by discriminate.
  assert (slash ∉ cstr "usr") as Hb.
  { intros H. repeat (apply elem_of_cons in H as [H|H]; [discriminate H|]).
    by apply elem_of_nil in H. }
  split.
  - apply (ssh_dirname_leading_slashes true 0 (cstr "usr") 1 Hne Hb).
    simpl. lia.
  - apply (ssh_dirname_leading_slashes true 1 (cstr "usr") 0 Hne Hb).
    simpl. lia.
Defined.

(** X11: when a slash stands in front of the last component,
    [ssh_basename] answers that component, without the trailing slashes of
    the path. *)
Theorem ssh_basename_component (ok : bool) (d b : list ascii) (k : nat) :
  b ≠ [] → slash ∉ b →
  Z.of_nat (length (d ++ slash :: b ++ replicate k slash)) < 2 ^ 32 →
  ssh_basename ok (Some (d ++ slash :: b ++ replicate k slash)) = strdup ok b.
Proof.
  intros Hne Hb Hlen. rewrite ssh_basename_Some by (by destruct d).
  by apply ssh_basename_body_component.
Qed.

Lemma ssh_basename_component_witness :
  ssh_basename true (Some (cstr "/usr/lib//")) = Some (cstr "lib").
Proof.
  apply (ssh_basename_component true (cstr "/usr") (cstr "lib") 2).
  - discriminate.
  - intros H. repeat (apply elem_of_cons in H as [H|H]; [discriminate H|]).
    by apply elem_of_nil in H.
  - simpl. lia.
Defined.

(** X12: [ssh_dirname] and [ssh_basename] answer [NULL] when the allocator
    fails and only then, whatever the path. *)
Theorem ssh_path_helpers_NULL_iff_alloc_fails
    (ok : bool) (path : option (list ascii)) :
  (ssh_dirname ok path = None ↔ ok = false) ∧
  (ssh_basename ok path = None ↔ ok = false).
Proof.
  destruct path as [[|c p]|], ok; simpl;
    unfold ssh_dirname_body, ssh_basename_body, strdup, copy_prefix;
    cbv zeta;
    repeat match goal with
      | |- context [if ?t then _ else _] => destruct t
      end;
    split; split; congruence.
Qed.

(** X13: for a path with a directory part [d], separating slashes, a last
    component [b] and trailing slashes, [ssh_dirname] answers [d] without
    its trailing slashes and [ssh_basename] answers [b]; joined by one
    slash, the two answers make a path on which both functions give the
    same answers again. *)
Theorem ssh_dirname_basename_rejoin (d b : list ascii) (k j : nat) :
  ¬ Forall (eq slash) d → b ≠ [] → slash ∉ b →
  Z.of_nat (length (d ++ replicate (S k) slash ++ b ++ replicate j slash))
    < 2 ^ 32 →
  ssh_dirname true (Some (d ++ replicate (S k) slash ++ b ++ replicate j slash))
    = Some (rstrip d) ∧
  ssh_basename true (Some (d ++ replicate (S k) slash ++ b ++ replicate j slash))
    = Some b ∧
  ssh_dirname true (Some (rstrip d ++ slash :: b)) = Some (rstrip d) ∧
  ssh_basename true (Some (rstrip d ++ slash :: b)) = Some b.
Proof.
  intros Hd Hne Hb Hlen.
  assert (d ≠ []) as Hdne by (intros ->; by apply Hd).
  destruct (rstrip_not_all_slashes d Hd) as [Hrd Hrr].
  assert (rstrip d ≠ []) as Hrne by (intros E; rewrite E in Hrd; by apply Hrd).
  pose proof (length_rstrip d) as Hrl.
  rewrite !length_app, !length_replicate in Hlen.
  assert (∀ q1 q2 : list ascii, q1 ≠ [] → q1 ++ q2 ≠ []) as Hnil
    by (intros [|? ?] ? ?; done).
  rewrite !ssh_dirname_Some, !ssh_basename_Some by (by apply Hnil).
  split; [|split; [|split]].
  - assert (d ++ replicate (S k) slash ++ b ++ replicate j slash
            = (d ++ replicate (S k) slash ++ b) ++ replicate j slash) as ->
      by (by rewrite <-!app_assoc).
    rewrite ssh_dirname_body_trailing.
    + apply (ssh_dirname_body_component true); try done.
      rewrite !length_app, !length_replicate. lia.
    + intros [H _]%Forall_app. done.
    + rewrite !length_app, !length_replicate. lia.
  - assert (d ++ replicate (S k) slash ++ b ++ replicate j slash
            = (d ++ replicate k slash) ++ slash :: b ++ replicate j slash) as ->
      by (by rewrite replicate_S_end, <-!app_assoc).
    apply (ssh_basename_body_component true (d ++ replicate k slash) b j);
      try done.
    rewrite !length_app, !length_replicate. simpl.
    rewrite !length_app, !length_replicate. lia.
  - etransitivity;
      [apply (ssh_dirname_body_component true (rstrip d) 0 b); try done
      |by rewrite Hrr].
    rewrite !length_app, !length_replicate. lia.
  - assert (rstrip d ++ slash :: b
            = rstrip d ++ slash :: b ++ replicate 0 slash) as ->
      by (simpl; by rewrite app_nil_r).
    apply (ssh_basename_body_component true (rstrip d) b 0); try done.
    rewrite !length_app. simpl. rewrite length_app. simpl. lia.
Qed.

Lemma ssh_dirname_basename_rejoin_witness :
  ssh_dirname true (Some (cstr "/usr//local///lib/")) = Some (cstr "/usr//local") ∧
  ssh_basename true (Some (cstr "/usr//local///lib/")) = Some (cstr "lib") ∧
  ssh_dirname true (Some (cstr "/usr//local/lib")) = Some (cstr "/usr//local") ∧
  ssh_basename true (Some (cstr "/usr//local/lib")) = Some (cstr "lib").
Proof.
  apply (ssh_dirname_basename_rejoin (cstr "/usr//local//") (cstr "lib") 0 1).
  - intros H. apply Forall_cons in H as [_ H].
    apply Forall_cons in H as [H _]. discriminate H.
  - discriminate.
  - intros H. repeat (apply elem_of_cons in H as [H|H]; [discriminate H|]).
    by apply elem_of_nil in H.
  - simpl. lia.
Defined.

(** X14: with memory at hand, the answer of [ssh_dirname] is ["."], ["/"],
    or a piece from the start of the path that does not end in a slash
    (possibly the empty piece), whatever the path. *)
Theorem ssh_dirname_answer_shape (path : option (list ascii)) :
  ∃ r, ssh_dirname true path = Some r ∧
       (r = cstr "." ∨ r = cstr "/" ∨
        ∃ p, path = Some p ∧ r `prefix_of` p ∧ last r ≠ Some slash).
Proof.
  destruct path as [[|c p]|]; simpl; [by eauto..| |by eauto].
  unfold ssh_dirname_body, strlen, strdup, copy_prefix. cbv zeta.
  set (path := c :: p).
  set (n1 := strip_slashes path (to_uint (length path))).
  set (n2 := skip_to_slash path n1).
  destruct (n1 =? 0)%nat; [by eauto|].
  destruct (n2 =? 0)%nat; [by eauto|].
  destruct (n2 =? 1)%nat; [by eauto|].
  eexists. split; [done|]. right. right. exists path. split; [done|].
  split; [apply prefix_take|].
  apply strip_slashes_last.
  pose proof (skip_to_slash_le path n1).
  pose proof (strip_slashes_le path (to_uint (length path))).
  pose proof (to_uint_le (length path)). subst n1 n2. lia.
Qed.

(** * More about [ntohll] *)

Lemma testbit_le_bytes_cons b x i :
  0 <= b < 256 → 0 <= i →
  Z.testbit (b + 256 * x) i
  = if i <? 8 then Z.testbit b i else Z.testbit x (i - 8).
Proof.
  intros Hb Hi. destruct (Z.ltb_spec i 8).
  - rewrite <-(Z.mod_pow2_bits_low (b + 256 * x) 8 i) by lia.
    change (2 ^ 8) with 256. rewrite (Z.mul_comm 256 x), Z.mod_add by lia.
    by rewrite Z.mod_small.
  - replace i with ((i - 8) + 8) at 1 by lia.
    rewrite <-Z.div_pow2_bits by lia.
    change (2 ^ 8) with 256. rewrite (Z.mul_comm 256 x), Z.div_add by lia.
    by rewrite Z.div_small.
Qed.

(** X15: on a little-endian host, [ntohll] applied to what the host reads
    from eight bytes in memory is the number those bytes stand for in
    network byte order. *)
Theorem ntohll_decodes_network_order (bs : list Z) :
  length bs = 8%nat →
  Forall (λ b, 0 <= b < 256) bs →
  ntohll false (le_bytes bs) = be_bytes bs.
Proof.
  intros Hlen Hbs.
  do 8 (destruct bs as [|? bs]; [discriminate Hlen|]).
  destruct bs; [|discriminate Hlen]. clear Hlen.
  repeat (apply Forall_cons in Hbs as [? Hbs]). clear Hbs.
  unfold be_bytes. cbn [reverse rev_append le_bytes].
  apply Z.bits_inj'. intros i Hi. rewrite ntohll_bits by done.
  repeat first
    [ rewrite testbit_le_bytes_cons by lia
    | rewrite Z.bits_0
    | progress split_cmp ];
    try reflexivity; f_equal; lia.
Qed.

Lemma ntohll_decodes_network_order_witness :
  ntohll false (le_bytes [1; 2; 3; 4; 5; 6; 7; 8])
  = be_bytes [1; 2; 3; 4; 5; 6; 7; 8].
Proof.
  apply (ntohll_decodes_network_order [1; 2; 3; 4; 5; 6; 7; 8]).
  - reflexivity.
  - repeat (apply Forall_cons; split; [lia|]). apply Forall_nil_2.
Defined.
